(** * fswatcher: the polling file watcher

    A shallow embedding of [Watcher.tick] and [New] of package fswatcher,
    together with the properties of the per-path state diff that the
    design document states about it.

    Layout: the pieces of the Go standard library the watcher calls
    ([os], [io/fs], [errors], [path/filepath]), the watcher's data types, the
    body of the range loop of [tick] for one tracked path ([tick_entry]),
    the loop over the registry ([tick]), and then the theorems. *)

From Stdlib Require Import ZArith Bool List.
From stdpp Require Import base option list gmap strings.

Local Open Scope Z_scope.
Local Open Scope string_scope.

(** ** The Go standard library, as far as [tick] uses it *)

(** [syscall.Errno] values of Linux. *)
Module syscall.
Definition EPERM : Z := 1.
Definition ENOENT : Z := 2.
Definition EIO : Z := 5.
Definition EACCES : Z := 13.
Definition ENOTDIR : Z := 20.
Definition EINVAL : Z := 22.
Definition ELOOP : Z := 40.
End syscall.

(** Go [error] values: the wrapper types of package [os] (each has an
    [Unwrap] method returning its [Err] field), a bare [syscall.Errno], the
    sentinel [fs.ErrNotExist], and any other error, which has neither an
    [Unwrap] nor an [Is] method. *)
Inductive error : Type :=
  | PathError (Op Path : string) (Err : error)
  | LinkError (Op Old New : string) (Err : error)
  | SyscallError (Syscall : string) (Err : error)
  | Errno (e : Z)
  | ErrNotExist
  | ErrorString (s : string).

(** [os.underlyingError]: one level of unwrapping, no more. *)
Definition underlyingError (err : error) : error :=
  match err with
  | PathError _ _ e => e
  | LinkError _ _ _ e => e
  | SyscallError _ e => e
  | _ => err
  end.

(** [os.IsNotExist(err)]: the underlying error is the sentinel, or an
    [Errno] whose [Is(ErrNotExist)] holds, which is [ENOENT] alone.
    [os.IsNotExist(nil)] is false. *)
Definition IsNotExist (err : option error) : bool :=
  match err with
  | None => false
  | Some e =>
      match underlyingError e with
      | ErrNotExist => true
      | Errno n => Z.eqb n syscall.ENOENT
      | _ => false
      end
  end.

(** [errors.As(err, &pathError)] with [pathError : *fs.PathError]: walks
    the [Unwrap] chain and reports whether some link is a [*fs.PathError]. *)
Fixpoint chain_has_PathError (e : error) : bool :=
  match e with
  | PathError _ _ _ => true
  | LinkError _ _ _ e' => chain_has_PathError e'
  | SyscallError _ e' => chain_has_PathError e'
  | _ => false
  end.

Definition As_PathError (err : option error) : bool :=
  match err with
  | None => false
  | Some e => chain_has_PathError e
  end.

(** [time.Time] is a struct of three fields; Go's [!=] on it compares
    them field by field ([loc] is a pointer, kept as its address). *)
Record Time : Type := { wall : Z; ext : Z; loc : Z }.

Definition Time_eqb (a b : Time) : bool :=
  Z.eqb (wall a) (wall b) && Z.eqb (ext a) (ext b) && Z.eqb (loc a) (loc b).

(** [os.FileInfo], reduced to the three methods [tick] calls:
    [Mode()] (a uint32 bit set), [Size()] (an int64) and [ModTime()]. *)
Record FileInfo : Type := { Mode : Z; Size : Z; ModTime : Time }.

(** [fs.ModeSymlink]: the fifth mode bit counted from the top of a uint32. *)
Definition ModeSymlink : Z := Z.shiftl 1 (32 - 1 - 4).

(** What [os.Lstat], [os.Stat] and [os.Readlink] return: a value and a nil
    error, or the zero value and a non-nil error. *)
Inductive result (A : Type) : Type :=
  | Ok (a : A)
  | Fail (e : error).
Arguments Ok {A} a.
Arguments Fail {A} e.

Definition val {A : Type} (r : result A) : option A :=
  match r with Ok a => Some a | Fail _ => None end.

Definition err {A : Type} (r : result A) : option error :=
  match r with Ok _ => None | Fail e => Some e end.

(** The file system as one poll cycle sees it: the outcome of each call
    [tick] can make. Nothing relates the three, so every combination of
    outcomes the operating system can produce is covered. *)
Record FS : Type := {
  Lstat : string -> result FileInfo;
  Readlink : string -> result string;
  Stat : string -> result FileInfo
}.

(** The three functions of [path/filepath] used to resolve a relative link
    target. They are lexical and pure; the development is parametric in
    them. *)
Class Filepath : Type := {
  IsAbs : string -> bool;
  Join : string -> string -> string;
  Dir : string -> string
}.

(** ** The watcher's data *)

(** [type Op uint32] and its three bits, [1 << iota]. *)
Definition Op : Type := Z.
Definition Create : Op := Z.shiftl 1 0.
Definition Write : Op := Z.shiftl 1 1.
Definition Remove : Op := Z.shiftl 1 2.

(** [func (o Op) Has(h Op) bool] *)
Definition Has (o h : Op) : bool := negb (Z.eqb (Z.land o h) 0).

Record Event : Type := { Name : string; op : Op }.

(** [type state struct]: the last observation of one tracked path. *)
Record state : Type := {
  path : string;
  info : option FileInfo;
  target : string;
  targetInfo : option FileInfo
}.

(** A send attempted by the poll loop, on [Events] or on [Errors]. The
    loop is a single goroutine, so its sends form one sequence. A send
    blocks until the consumer receives or the watcher is stopped; the loop
    body goes on in the same way after either. *)
Inductive msg : Type :=
  | sendEvent (e : Event)
  | sendError (e : error).

Definition with_targetInfo (s : state) (ti : option FileInfo) : state :=
  {| path := path s; info := info s; target := target s; targetInfo := ti |}.

Definition with_target (s : state) (t : string) : state :=
  {| path := path s; info := info s; target := t; targetInfo := targetInfo s |}.

(** [New]: every tracked file starts with the empty state; a path listed
    twice is one key of the map. (The channels, the ticker and the
    goroutine it starts hold no per-path data.) *)
Definition New (trackedFiles : list string) : gmap string state :=
  foldl (fun tracked f =>
           <[f := {| path := f; info := None; target := ""; targetInfo := None |}]> tracked)
        ∅ trackedFiles.

(** The events among the sends, and the operations reported for one name. *)
Definition events_of (sent : list msg) : list Event :=
  omap (fun m => match m with sendEvent e => Some e | sendError _ => None end) sent.

Definition events_for (p : string) (sent : list msg) : list Event :=
  filter (fun e => Name e = p) (events_of sent).

Definition ops_for (p : string) (sent : list msg) : list Op :=
  op <$> events_for p sent.

(** ** One iteration of the range loop of [tick]

    [tick_entry fs oldState] is the loop body for the entry [oldState]. It
    returns the state the iteration stores under [oldState.path], [None]
    when the iteration ends in a [continue] that stores nothing, and the
    sends it attempts, in order. *)
Section Tick.
Context {fp : Filepath}.

Definition tick_entry (fs : FS) (oldState : state) : option state * list msg :=
  let path_ := path oldState in
  let oldInfo := info oldState in
  let r := Lstat fs path_ in
  let newState :=
    {| path := path oldState; info := val r; target := ""; targetInfo := None |} in
  if IsNotExist (err r) then
    (* the path does not exist: a deletion if it existed before *)
    match info oldState with
    | Some _ =>
        (Some newState, [sendEvent {| Name := path_; op := Remove |}])
    | None => (None, [])
    end
  else
    match r with
    | Fail e => (* some other error of Lstat *) (None, [sendError e])
    | Ok info_ =>
        if negb (Z.eqb (Z.land (Mode info_) ModeSymlink) 0) then
          match Readlink fs (path oldState) with
          | Fail _ => (* swallowed *) (None, [])
          | Ok target0 =>
              let target_ :=
                if negb (IsAbs target0) then Join (Dir path_) target0
                else target0 in
              let rt := Stat fs target_ in
              let targetInfo_ := val rt in
              let '(newState1, sent1) :=
                if As_PathError (err rt) then
                  match targetInfo oldState with
                  | Some _ =>
                      (with_targetInfo newState None,
                       [sendEvent {| Name := path_; op := Remove |}])
                  | None => (newState, [])
                  end
                else
                  match err rt with
                  | Some e => (newState, [sendError e])
                  | None => (newState, [])
                  end in
              let sent2 :=
                match targetInfo oldState with
                | None =>
                    match targetInfo_ with
                    | Some ti =>
                        let op0 := Create in
                        let op1 :=
                          if Z.ltb 0 (Size ti) then Z.lor op0 Write else op0 in
                        [sendEvent {| Name := path_; op := op1 |}]
                    | None => []
                    end
                | Some oldTi =>
                    match targetInfo_ with
                    | Some ti =>
                        if negb (String.eqb (target oldState) target_)
                           || negb (Z.eqb (Size oldTi) (Size ti))
                           || negb (Time_eqb (ModTime oldTi) (ModTime ti))
                        then [sendEvent {| Name := path_; op := Write |}]
                        else []
                    | None => []
                    end
                end in
              (Some (with_targetInfo (with_target newState1 target_) targetInfo_),
               (sent1 ++ sent2)%list)
          end
        else
          let sent :=
            match oldInfo with
            | None =>
                let op0 := Create in
                let op1 :=
                  if Z.ltb 0 (Size info_) then Z.lor op0 Write else op0 in
                [sendEvent {| Name := path_; op := op1 |}]
            | Some oldInfo_ =>
                if negb (Time_eqb (ModTime info_) (ModTime oldInfo_))
                   || negb (Z.eqb (Size info_) (Size oldInfo_))
                then [sendEvent {| Name := path_; op := Write |}]
                else []
            end in
          (Some newState, sent)
    end.

(** What the map holds for the entry after its iteration, and what the
    iteration sent. *)
Definition next_state (fs : FS) (st : state) : state :=
  default st (tick_entry fs st).1.

Definition sends (fs : FS) (st : state) : list msg := (tick_entry fs st).2.

(** ** The range loop of [tick]

    [tick_visit] is one iteration: the entry under key [k] is read when the
    iteration starts, and the result is stored under [oldState.path].
    [tick_order] visits the keys in the order [ks]; Go leaves the order of
    a range over a map unspecified, and [tick] fixes one. *)
Definition tick_visit (fs : FS) (acc : gmap string state * list msg) (k : string)
  : gmap string state * list msg :=
  match acc.1 !! k with
  | None => acc
  | Some oldState =>
      let '(stored, sent) := tick_entry fs oldState in
      (match stored with
       | Some newState => <[path oldState := newState]> acc.1
       | None => acc.1
       end,
       (acc.2 ++ sent)%list)
  end.

Definition tick_order (fs : FS) (ks : list string) (tracked : gmap string state)
  : gmap string state * list msg :=
  foldl (tick_visit fs) (tracked, []) ks.

Definition keys (tracked : gmap string state) : list string :=
  (map_to_list tracked).*1.

Definition tick (fs : FS) (tracked : gmap string state)
  : gmap string state * list msg :=
  tick_order fs (keys tracked) tracked.

(** Successive poll cycles, one file-system snapshot per cycle; the sends
    of all cycles in order. *)
Fixpoint run (fss : list FS) (tracked : gmap string state)
  : gmap string state * list msg :=
  match fss with
  | [] => (tracked, [])
  | fs :: rest =>
      let c := tick fs tracked in
      let r := run rest c.1 in
      (r.1, (c.2 ++ r.2)%list)
  end.

(** The registries the watcher can hold: the one [New] builds, and any
    registry a poll cycle leaves, whatever the iteration order. *)
Inductive reachable : gmap string state -> Prop :=
  | reachable_New (trackedFiles : list string) : reachable (New trackedFiles)
  | reachable_tick (fs : FS) (ks : list string) (tracked : gmap string state) :
      reachable tracked ->
      ks ≡ₚ keys tracked ->
      reachable (tick_order fs ks tracked).1.

End Tick.

(** ** Construction and configuration

    [func (e Event) Has(op Op) bool] *)
Definition Event_Has (e : Event) (o : Op) : bool := Has (op e) o.

(** [time.Duration] counts nanoseconds in an int64. *)
Definition Millisecond : Z := 1000 * 1000.
Definition Second : Z := 1000 * Millisecond.

Definition defaultInterval : Z := 5 * Second.
Definition testInterval : Z := 50 * Millisecond.

(** The channel [time.Tick(d)] returns, kept as the call that made it;
    [nilTicker] is the zero value of the field. *)
Inductive Ticker : Type :=
  | nilTicker
  | Tick (d : Z).

(** [type Watcher struct], without its channels and wait group. *)
Record Watcher : Type := {
  tracked : gmap string state;
  interval : Z;
  ticker : Ticker
}.

(** [type Option]: a function on the watcher under construction; it may
    write any field. *)
Definition Option : Type := Watcher -> Watcher.

Definition WithInterval (d : Z) : Option :=
  fun w => {| tracked := tracked w; interval := d; ticker := ticker w |}.

(** A call that may panic instead of returning. *)
Inductive outcome (A : Type) : Type :=
  | Returns (a : A)
  | Panics.
Arguments Returns {A} a.
Arguments Panics {A}.

(** [New] with its configuration: the interval is chosen by
    [testing.Testing()], the options run in order on the watcher, and only
    then are the registry and the ticker stored. [time.Tick] is the one of
    cilium's [pkg/time]; it panics on an interval that is not positive, so
    [New] returns no watcher then. When it returns, the error is nil. *)
Definition NewWatcher (testing : bool) (trackedFiles : list string) (options : list Option)
  : outcome (Watcher * option error) :=
  let interval0 := if testing then testInterval else defaultInterval in
  let w0 := {| tracked := ∅; interval := interval0; ticker := nilTicker |} in
  let w1 := foldl (fun w option => option w) w0 options in
  let w2 := {| tracked := New trackedFiles; interval := interval w1; ticker := ticker w1 |} in
  if Z.leb (interval w2) 0 then Panics
  else
    let w3 := {| tracked := tracked w2; interval := interval w2; ticker := Tick (interval w2) |} in
    Returns (w3, None).

(** The outcomes of [Lstat] that the first test of the loop body takes for
    "the path does not exist". *)
Definition lstat_not_found (fs : FS) (p : string) : bool :=
  match Lstat fs p with
  | Fail e => IsNotExist (Some e)
  | Ok _ => false
  end.

(** ** [path/filepath] on Unix

    The lexical functions of Go's [path/filepath] for Unix, by path
    components: [Clean] drops empty and [.] components, lets [..] cancel
    the component before it, drops [..] at the root and keeps leading [..]
    of a relative path. *)
Definition unix_IsAbs (p : string) : bool :=
  match p with
  | String c _ => Ascii.eqb c (Ascii.ascii_of_nat 47)
  | EmptyString => false
  end.

Fixpoint components (s : string) : list string :=
  match s with
  | EmptyString => [""]
  | String c s' =>
      if Ascii.eqb c (Ascii.ascii_of_nat 47) then "" :: components s'
      else
        match components s' with
        | h :: t => String c h :: t
        | [] => [String c ""]
        end
  end.

Definition clean_push (rooted : bool) (stack : list string) (c : string)
  : list string :=
  if String.eqb c "" || String.eqb c "." then stack
  else if String.eqb c ".." then
    match stack with
    | top :: rest => if String.eqb top ".." then ".." :: stack else rest
    | [] => if rooted then [] else [".."]
    end
  else c :: stack.

Definition Clean (p : string) : string :=
  let rooted := unix_IsAbs p in
  let body := String.concat "/" (rev (foldl (clean_push rooted) [] (components p))) in
  if rooted then "/" ++ body
  else if String.eqb body "" then "." else body.

Definition unix_Dir (p : string) : string :=
  match removelast (components p) with
  | [] => Clean ""
  | l => Clean (String.concat "/" l ++ "/")
  end.

Definition unix_Join (a b : string) : string :=
  if negb (String.eqb a "") then Clean (a ++ "/" ++ b)
  else if negb (String.eqb b "") then Clean b
  else "".

Definition unix_filepath : Filepath :=
  {| IsAbs := unix_IsAbs; Join := unix_Join; Dir := unix_Dir |}.

(** ** Vocabulary of the statements *)

(** The test of line [info.Mode()&os.ModeSymlink != 0]. *)
Definition is_symlink (i : FileInfo) : bool :=
  negb (Z.eqb (Z.land (Mode i) ModeSymlink) 0).

(** The path [tick] stats for the link text [t] read from the tracked
    path [p]. *)
Definition resolve {fp : Filepath} (p t : string) : string :=
  if negb (IsAbs t) then Join (Dir p) t else t.

(** The poll cycle finds [p] to be a symlink whose link text it can read
    and whose resolved target it cannot stat. *)
Definition target_stat_fails {fp : Filepath} (fs : FS) (p : string) : bool :=
  match Lstat fs p with
  | Ok i =>
      is_symlink i &&
      match Readlink fs p with
      | Ok t => match Stat fs (resolve p t) with Fail _ => true | Ok _ => false end
      | Fail _ => false
      end
  | Fail _ => false
  end.

(** The bitmask of a creation: [Create], with [Write] when there is data. *)
Definition created_op (size : Z) : Op :=
  if Z.ltb 0 size then Z.lor Create Write else Create.

Definition empty_state (f : string) : state :=
  {| path := f; info := None; target := ""; targetInfo := None |}.

(** What a poll cycle finds at [p]: something that is not a symlink, or a
    symlink whose link text can be read and whose resolved target exists. *)
Definition seen_as_file (fs : FS) (p : string) (i : FileInfo) : Prop :=
  Lstat fs p = Ok i /\ is_symlink i = false.

Definition seen_as_link_to {fp : Filepath} (fs : FS) (p t : string) (ti : FileInfo) : Prop :=
  exists i, Lstat fs p = Ok i /\ is_symlink i = true /\
            Readlink fs p = Ok t /\ Stat fs (resolve p t) = Ok ti.

(** Two cycles get the same outcomes of the calls made for [p]. *)
Definition same_outcomes {fp : Filepath} (fs1 fs2 : FS) (p : string) : Prop :=
  Lstat fs1 p = Lstat fs2 p /\
  Readlink fs1 p = Readlink fs2 p /\
  forall t, Readlink fs1 p = Ok t -> Stat fs1 (resolve p t) = Stat fs2 (resolve p t).

(** Every entry is stored under its own path. *)
Definition keyed_by_path (tracked : gmap string state) : Prop :=
  map_Forall (fun k st => path st = k) tracked.

(** The two invariants of the data model on one entry. *)
Definition state_inv (st : state) : Prop :=
  (info st = None -> target st = "" /\ targetInfo st = None) /\
  (forall ti, targetInfo st = Some ti ->
     exists i, info st = Some i /\ is_symlink i = true).

(** Two [Remove] operations in a sequence of reported operations with no
    [Create] between them. *)
Definition Remove_twice_in_a_row (ops : list Op) : Prop :=
  exists l1 r1 mid r2 l2,
    ops = (l1 ++ r1 :: mid ++ r2 :: l2)%list /\
    Has r1 Remove = true /\ Has r2 Remove = true /\
    Forall (fun o => Has o Create = false) mid.

(** The same, by one scan that remembers whether the latest [Remove] is
    still waiting for a [Create]. *)
Fixpoint alternates (removed : bool) (ops : list Op) : bool :=
  match ops with
  | [] => true
  | o :: rest =>
      if Has o Remove then negb removed && alternates true rest
      else if Has o Create then alternates false rest
      else alternates removed rest
  end.

(** What the scan of [alternates] needs to know about an entry: while a
    [Remove] waits for its [Create] the entry has no [info], and an entry
    without [info] has no [targetInfo]. *)
Definition pending_ok (st : state) (removed : bool) : Prop :=
  (removed = true -> info st = None) /\ (info st = None -> targetInfo st = None).

(** ** A small file system for the worked scenarios

    A path is a regular file, a symlink with its link text, or a name in a
    directory the process may not search (every call on it fails with
    [EACCES]). Absent paths fail with [ENOENT]. As [os] does, every failure
    is a [*PathError] naming the call and the path. *)
Inductive node : Type :=
  | File (i : FileInfo)
  | Link (t : string)
  | NoAccess.

Definition lookup_node (nodes : list (string * node)) (p : string) : option node :=
  snd <$> List.find (fun kv => String.eqb (fst kv) p) nodes.

Definition link_info : FileInfo :=
  {| Mode := Z.lor ModeSymlink 511; Size := 2;
     ModTime := {| wall := 0; ext := 1; loc := 0 |} |}.

Definition regular (size mtime : Z) : FileInfo :=
  {| Mode := 420; Size := size; ModTime := {| wall := 0; ext := mtime; loc := 0 |} |}.

Definition node_Lstat (nodes : list (string * node)) (p : string) : result FileInfo :=
  match lookup_node nodes p with
  | Some (File i) => Ok i
  | Some (Link _) => Ok link_info
  | Some NoAccess => Fail (PathError "lstat" p (Errno syscall.EACCES))
  | None => Fail (PathError "lstat" p (Errno syscall.ENOENT))
  end.

Definition node_Readlink (nodes : list (string * node)) (p : string) : result string :=
  match lookup_node nodes p with
  | Some (Link t) => Ok t
  | Some (File _) => Fail (PathError "readlink" p (Errno syscall.EINVAL))
  | Some NoAccess => Fail (PathError "readlink" p (Errno syscall.EACCES))
  | None => Fail (PathError "readlink" p (Errno syscall.ENOENT))
  end.

Fixpoint node_Stat (hops : nat) (nodes : list (string * node)) (name p : string)
  : result FileInfo :=
  match lookup_node nodes p with
  | Some (File i) => Ok i
  | Some (Link t) =>
      match hops with
      | O => Fail (PathError "stat" name (Errno syscall.ELOOP))
      | S n => node_Stat n nodes name (@resolve unix_filepath p t)
      end
  | Some NoAccess => Fail (PathError "stat" name (Errno syscall.EACCES))
  | None => Fail (PathError "stat" name (Errno syscall.ENOENT))
  end.

Definition fs_of (nodes : list (string * node)) : FS :=
  {| Lstat := node_Lstat nodes;
     Readlink := node_Readlink nodes;
     Stat := fun p => node_Stat 40 nodes p p |}.

(** The scenarios used below, all about the tracked path [/s]. *)
Definition fs_absent : FS := fs_of [].

Definition fs_file : FS := fs_of [("/s", File (regular 5 100))].

Definition fs_link_a : FS :=
  fs_of [("/s", Link "/a"); ("/a", File (regular 5 100))].


Definition fs_dangling : FS := fs_of [("/s", Link "/a")].

Definition fs_target_denied : FS := fs_of [("/s", Link "/a"); ("/a", NoAccess)].

Definition fs_denied : FS := fs_of [("/s", NoAccess)].

(** The link is removed between the [Lstat] and the [Readlink] of one
    iteration. *)
Definition fs_link_vanishes : FS :=
  {| Lstat := Lstat fs_dangling; Readlink := Readlink fs_absent; Stat := Stat fs_absent |}.

(** The entries those scenarios leave for [/s]. *)
Definition st_file : state :=
  {| path := "/s"; info := Some (regular 5 100); target := ""; targetInfo := None |}.

Definition st_link_a : state :=
  {| path := "/s"; info := Some link_info; target := "/a";
     targetInfo := Some (regular 5 100) |}.

Definition eacces (call name : string) : error :=
  PathError call name (Errno syscall.EACCES).

Definition enoent (call name : string) : error :=
  PathError call name (Errno syscall.ENOENT).

(** * Facts about one iteration *)

Local Open Scope list_scope.

Section Entry.
Context {fp : Filepath}.
Implicit Types (fs : FS) (st : state).

(** Splits an iteration along every test the loop body makes. *)
Ltac tick_cases :=
  unfold tick_entry;
  repeat (case_match; simpl in *; simplify_eq; try done).

Lemma tick_entry_stored_path fs st st' :
  (tick_entry fs st).1 = Some st' -> path st' = path st.
Proof. tick_cases; intros; simplify_eq; done. Qed.

Lemma path_next_state fs st : path (next_state fs st) = path st.
Proof.
  unfold next_state.
  destruct (tick_entry fs st).1 as [st'|] eqn:E; simpl; [|done].
  by apply tick_entry_stored_path in E.
Qed.

Lemma sends_Name fs st e : sendEvent e ∈ sends fs st -> Name e = path st.
Proof.
  unfold sends. tick_cases; intros Hin;
    repeat (apply elem_of_cons in Hin; destruct Hin as [Hin|Hin];
            [by simplify_eq|]);
    by apply elem_of_nil in Hin.
Qed.

(** The loop body, branch by branch. *)

Lemma tick_entry_not_exist fs st e :
  Lstat fs (path st) = Fail e -> IsNotExist (Some e) = true ->
  tick_entry fs st =
  match info st with
  | Some _ => (Some (empty_state (path st)),
               [sendEvent {| Name := path st; op := Remove |}])
  | None => (None, [])
  end.
Proof.
  intros HL HN. unfold tick_entry. rewrite HL. cbn [err val]. rewrite HN.
  by destruct (info st).
Qed.

Lemma tick_entry_lstat_error fs st e :
  Lstat fs (path st) = Fail e -> IsNotExist (Some e) = false ->
  tick_entry fs st = (None, [sendError e]).
Proof. intros HL HN. unfold tick_entry. rewrite HL. cbn [err val]. by rewrite HN. Qed.

Lemma tick_entry_readlink_error fs st i e :
  Lstat fs (path st) = Ok i -> is_symlink i = true ->
  Readlink fs (path st) = Fail e ->
  tick_entry fs st = (None, []).
Proof.
  unfold is_symlink. intros HL HS HR. unfold tick_entry.
  rewrite HL. simpl. rewrite HS, HR. done.
Qed.

Lemma tick_entry_target_present fs st i t ti :
  Lstat fs (path st) = Ok i -> is_symlink i = true ->
  Readlink fs (path st) = Ok t ->
  Stat fs (resolve (path st) t) = Ok ti ->
  tick_entry fs st =
  (Some {| path := path st; info := Some i;
           target := resolve (path st) t; targetInfo := Some ti |},
   match targetInfo st with
   | None => [sendEvent {| Name := path st; op := created_op (Size ti) |}]
   | Some oldTi =>
       if negb (String.eqb (target st) (resolve (path st) t))
          || negb (Z.eqb (Size oldTi) (Size ti))
          || negb (Time_eqb (ModTime oldTi) (ModTime ti))
       then [sendEvent {| Name := path st; op := Write |}]
       else []
   end).
Proof.
  unfold is_symlink, resolve. intros HL HS HR HT. unfold tick_entry.
  rewrite HL. simpl. rewrite HS, HR, HT. simpl.
  by destruct (targetInfo st).
Qed.

Lemma tick_entry_target_stat_error fs st i t e :
  Lstat fs (path st) = Ok i -> is_symlink i = true ->
  Readlink fs (path st) = Ok t ->
  Stat fs (resolve (path st) t) = Fail e ->
  tick_entry fs st =
  (Some {| path := path st; info := Some i;
           target := resolve (path st) t; targetInfo := None |},
   if chain_has_PathError e then
     match targetInfo st with
     | Some _ => [sendEvent {| Name := path st; op := Remove |}]
     | None => []
     end
   else [sendError e]).
Proof.
  unfold is_symlink, resolve. intros HL HS HR HT. unfold tick_entry.
  rewrite HL. simpl. rewrite HS, HR, HT. simpl.
  destruct (chain_has_PathError e), (targetInfo st); done.
Qed.

Lemma tick_entry_not_symlink fs st i :
  Lstat fs (path st) = Ok i -> is_symlink i = false ->
  tick_entry fs st =
  (Some {| path := path st; info := Some i; target := ""; targetInfo := None |},
   match info st with
   | None => [sendEvent {| Name := path st; op := created_op (Size i) |}]
   | Some oldInfo =>
       if negb (Time_eqb (ModTime i) (ModTime oldInfo))
          || negb (Z.eqb (Size i) (Size oldInfo))
       then [sendEvent {| Name := path st; op := Write |}]
       else []
   end).
Proof.
  unfold is_symlink. intros HL HS. unfold tick_entry.
  rewrite HL. simpl. rewrite HS. done.
Qed.

(** Whatever an iteration stores satisfies the invariants of the data
    model, whatever state it started from. *)
Lemma tick_entry_stored_inv fs st st' :
  (tick_entry fs st).1 = Some st' -> state_inv st'.
Proof.
  destruct (Lstat fs (path st)) as [i|e] eqn:HL.
  - destruct (is_symlink i) eqn:HS.
    + destruct (Readlink fs (path st)) as [t|e] eqn:HR.
      * destruct (Stat fs (resolve (path st) t)) as [ti|e] eqn:HT.
        -- rewrite (tick_entry_target_present fs st i t ti) by done.
           intros [= <-]. split; simpl; [done|]. intros ? _. by exists i.
        -- rewrite (tick_entry_target_stat_error fs st i t e) by done.
           intros [= <-]. split; simpl; done.
      * by rewrite (tick_entry_readlink_error fs st i e).
    + rewrite (tick_entry_not_symlink fs st i) by done.
      intros [= <-]. split; simpl; done.
  - destruct (IsNotExist (Some e)) eqn:HN.
    + rewrite (tick_entry_not_exist fs st e) by done.
      destruct (info st); [|done]. intros [= <-]. split; simpl; done.
    + by rewrite (tick_entry_lstat_error fs st e).
Qed.

Lemma next_state_inv fs st : state_inv st -> state_inv (next_state fs st).
Proof.
  intros Hinv. unfold next_state.
  destruct (tick_entry fs st).1 as [st'|] eqn:E; simpl; [|done].
  by apply tick_entry_stored_inv in E.
Qed.

Lemma Time_eqb_refl (a : Time) : Time_eqb a a = true.
Proof. unfold Time_eqb. by rewrite !Z.eqb_refl. Qed.

Lemma Time_eqb_eq (a b : Time) : Time_eqb a b = true <-> a = b.
Proof.
  split; [|intros ->; apply Time_eqb_refl].
  unfold Time_eqb. destruct a, b; simpl.
  rewrite !andb_true_iff, !Z.eqb_eq. intros [[-> ->] ->]. done.
Qed.

End Entry.

(** * The loop over the registry, entry by entry *)

Section Registry.
Context {fp : Filepath}.
Implicit Types (fs : FS) (st : state) (tracked : gmap string state).

Lemma events_for_app p (a b : list msg) :
  events_for p (a ++ b) = events_for p a ++ events_for p b.
Proof. unfold events_for, events_of. by rewrite omap_app, filter_app. Qed.

Lemma filter_keeps_all {A} (P : A -> Prop) `{forall x, Decision (P x)} (l : list A) :
  Forall P l -> filter P l = l.
Proof.
  induction 1 as [|x l Hx Hl IH]; [done|].
  rewrite filter_cons_True by done. by rewrite IH.
Qed.

Lemma filter_keeps_none {A} (P : A -> Prop) `{forall x, Decision (P x)} (l : list A) :
  Forall (fun x => ~ P x) l -> filter P l = [].
Proof.
  induction 1 as [|x l Hx Hl IH]; [done|].
  by rewrite filter_cons_False.
Qed.

Lemma events_for_own fs st : events_for (path st) (sends fs st) = events_of (sends fs st).
Proof.
  unfold events_for. apply filter_keeps_all, Forall_forall.
  intros e He. apply sends_Name with fs.
  unfold events_of in He. apply list_elem_of_omap in He as (m & Hm & Hsome).
  destruct m; by simplify_eq.
Qed.

Lemma events_for_other fs st p : path st <> p -> events_for p (sends fs st) = [].
Proof.
  intros Hne. unfold events_for. apply filter_keeps_none, Forall_forall.
  intros e He Hn. apply Hne. rewrite <- Hn. symmetry. apply sends_Name with fs.
  unfold events_of in He. apply list_elem_of_omap in He as (m & Hm & Hsome).
  destruct m; by simplify_eq.
Qed.

(** One iteration, seen from the map: it rewrites the entry under [k] and
    appends that entry's sends. *)
Lemma tick_visit_alter fs tracked out k :
  keyed_by_path tracked ->
  tick_visit fs (tracked, out) k =
  (alter (next_state fs) k tracked,
   out ++ from_option (sends fs) [] (tracked !! k)).
Proof.
  intros Hk. unfold tick_visit. simpl.
  destruct (tracked !! k) as [old|] eqn:E; simpl.
  - assert (path old = k) as Hp by (by apply (Hk k old)).
    assert (next_state fs old = default old (tick_entry fs old).1) as Hn by done.
    unfold sends.
    destruct (tick_entry fs old) as [[new|] sent]; simpl in *; rewrite ?Hp;
      f_equal; apply map_eq; intros j; destruct (decide (k = j)) as [->|Hne].
    + rewrite lookup_insert_eq, lookup_alter_eq, E. simpl. by rewrite Hn.
    + by rewrite lookup_insert_ne, lookup_alter_ne.
    + rewrite lookup_alter_eq, E. simpl. by rewrite Hn.
    + by rewrite lookup_alter_ne.
  - f_equal; [|by rewrite app_nil_r].
    apply map_eq. intros j. destruct (decide (k = j)) as [->|Hne].
    + by rewrite lookup_alter_eq, E.
    + by rewrite lookup_alter_ne.
Qed.

Lemma keyed_by_path_alter fs tracked k :
  keyed_by_path tracked -> keyed_by_path (alter (next_state fs) k tracked).
Proof.
  intros Hk j st. destruct (decide (k = j)) as [->|Hne].
  - rewrite lookup_alter_eq. destruct (tracked !! j) as [old|] eqn:E; [|done].
    simpl. intros [= <-]. rewrite path_next_state. by apply (Hk j old).
  - rewrite lookup_alter_ne by done. apply Hk.
Qed.

Lemma keyed_by_path_fmap fs tracked :
  keyed_by_path tracked -> keyed_by_path (next_state fs <$> tracked).
Proof.
  intros Hk j st. rewrite lookup_fmap.
  destruct (tracked !! j) as [old|] eqn:E; [|done].
  simpl. intros [= <-]. rewrite path_next_state. by apply (Hk j old).
Qed.

Lemma sends_unvisited fs tracked k (ks : list string) :
  k ∉ ks ->
  flat_map (fun j => from_option (sends fs) [] (alter (next_state fs) k tracked !! j)) ks =
  flat_map (fun j => from_option (sends fs) [] (tracked !! j)) ks.
Proof.
  induction ks as [|j ks IH]; [done|].
  intros Hnin. apply not_elem_of_cons in Hnin as [Hne Hnin]. simpl.
  rewrite lookup_alter_ne by done. by rewrite IH.
Qed.

Lemma tick_order_fold fs (ks : list string) : forall tracked out,
  keyed_by_path tracked -> NoDup ks ->
  foldl (tick_visit fs) (tracked, out) ks =
  (foldl (fun m k => alter (next_state fs) k m) tracked ks,
   out ++ flat_map (fun k => from_option (sends fs) [] (tracked !! k)) ks).
Proof.
  induction ks as [|k ks IH]; intros tracked out Hk Hnd; simpl.
  - by rewrite app_nil_r.
  - apply NoDup_cons in Hnd as [Hnin Hnd].
    rewrite tick_visit_alter by done.
    rewrite IH by (done || by apply keyed_by_path_alter).
    by rewrite sends_unvisited, <- app_assoc.
Qed.

Lemma visited_lookup fs (ks : list string) : forall tracked j,
  NoDup ks ->
  foldl (fun m k => alter (next_state fs) k m) tracked ks !! j =
  if decide (j ∈ ks) then next_state fs <$> tracked !! j else tracked !! j.
Proof.
  induction ks as [|k ks IH]; intros tracked j Hnd; simpl; [done|].
  apply NoDup_cons in Hnd as [Hnin Hnd]. rewrite IH by done.
  destruct (decide (k = j)) as [->|Hne].
  - rewrite lookup_alter_eq.
    rewrite (decide_False (P := j ∈ ks)) by done.
    rewrite (decide_True (P := j ∈ j :: ks)) by (by left). done.
  - rewrite lookup_alter_ne by done.
    destruct (decide (j ∈ ks)) as [Hin|Hout].
    + rewrite decide_True by (by right). done.
    + rewrite decide_False; [done|]. intros [->|?]%elem_of_cons; done.
Qed.

Lemma elem_of_keys tracked k : k ∈ keys tracked <-> is_Some (tracked !! k).
Proof.
  unfold keys. rewrite list_elem_of_fmap. split.
  - intros ([k' st] & -> & Hin). apply elem_of_map_to_list in Hin. by exists st.
  - intros [st Hst]. exists (k, st). split; [done|]. by apply elem_of_map_to_list.
Qed.

Lemma NoDup_keys tracked : NoDup (keys tracked).
Proof. apply NoDup_fst_map_to_list. Qed.

(** The registry a cycle leaves, and what the cycle reports for one path:
    both are determined entry by entry, whatever the iteration order. *)
Lemma tick_order_tracked fs ks tracked :
  keyed_by_path tracked -> ks ≡ₚ keys tracked ->
  (tick_order fs ks tracked).1 = next_state fs <$> tracked.
Proof.
  intros Hk Hperm.
  assert (NoDup ks) as Hnd by (rewrite Hperm; apply NoDup_keys).
  unfold tick_order. rewrite tick_order_fold by done. simpl.
  apply map_eq. intros j. rewrite visited_lookup by done. rewrite lookup_fmap.
  destruct (decide (j ∈ ks)) as [Hin|Hout]; [done|].
  destruct (tracked !! j) as [st|] eqn:E; [|done].
  exfalso. apply Hout. rewrite Hperm. apply elem_of_keys. by exists st.
Qed.

Lemma tick_order_sends fs ks tracked :
  keyed_by_path tracked -> ks ≡ₚ keys tracked ->
  (tick_order fs ks tracked).2 =
  flat_map (fun k => from_option (sends fs) [] (tracked !! k)) ks.
Proof.
  intros Hk Hperm.
  assert (NoDup ks) as Hnd by (rewrite Hperm; apply NoDup_keys).
  unfold tick_order. by rewrite tick_order_fold.
Qed.

Lemma events_for_visits fs tracked p (ks : list string) :
  keyed_by_path tracked -> NoDup ks ->
  events_for p (flat_map (fun k => from_option (sends fs) [] (tracked !! k)) ks) =
  if decide (p ∈ ks)
  then from_option (fun st => events_of (sends fs st)) [] (tracked !! p)
  else [].
Proof.
  intros Hk. induction ks as [|k ks IH]; intros Hnd; simpl; [done|].
  apply NoDup_cons in Hnd as [Hnin Hnd].
  rewrite events_for_app, IH by done.
  destruct (decide (k = p)) as [->|Hne].
  - rewrite (decide_True (P := p ∈ p :: ks)) by (by left).
    rewrite (decide_False (P := p ∈ ks)) by done.
    rewrite app_nil_r. destruct (tracked !! p) as [st|] eqn:E; [|done].
    simpl. rewrite <- (Hk p st E). apply events_for_own.
  - assert (events_for p (from_option (sends fs) [] (tracked !! k)) = []) as ->.
    { destruct (tracked !! k) as [st|] eqn:E; [|done].
      simpl. apply events_for_other. by rewrite (Hk k st E). }
    simpl. destruct (decide (p ∈ ks)) as [Hin|Hout].
    + rewrite decide_True by (by right). done.
    + rewrite decide_False; [done|]. intros [->|?]%elem_of_cons; done.
Qed.

Lemma tick_order_events_for fs ks tracked p :
  keyed_by_path tracked -> ks ≡ₚ keys tracked ->
  events_for p (tick_order fs ks tracked).2 =
  from_option (fun st => events_of (sends fs st)) [] (tracked !! p).
Proof.
  intros Hk Hperm.
  assert (NoDup ks) as Hnd by (rewrite Hperm; apply NoDup_keys).
  rewrite tick_order_sends, events_for_visits by done.
  destruct (decide (p ∈ ks)) as [Hin|Hout]; [done|].
  destruct (tracked !! p) as [st|] eqn:E; [|done].
  exfalso. apply Hout. rewrite Hperm. apply elem_of_keys. by exists st.
Qed.

End Registry.

(** * The registries the watcher can hold *)

Section Reachable.
Context {fp : Filepath}.
Implicit Types (fs : FS) (st : state) (tracked : gmap string state).

Lemma New_fold_lookup (files : list string) : forall (acc : gmap string state) k st,
  foldl (fun tracked f => <[f := empty_state f]> tracked) acc files !! k = Some st ->
  st = empty_state k \/ acc !! k = Some st.
Proof.
  induction files as [|f files IH]; intros acc k st; simpl; [by right|].
  intros H. apply IH in H as [H|H]; [by left|].
  destruct (decide (f = k)) as [->|Hne].
  - rewrite lookup_insert_eq in H. left. by simplify_eq.
  - rewrite lookup_insert_ne in H by done. by right.
Qed.

Lemma New_lookup (files : list string) k st :
  New files !! k = Some st -> st = empty_state k.
Proof.
  intros H. apply New_fold_lookup in H as [H|H]; [done|].
  by rewrite lookup_empty in H.
Qed.

Lemma reachable_wf tracked :
  reachable tracked ->
  keyed_by_path tracked /\ map_Forall (fun _ st => state_inv st) tracked.
Proof.
  induction 1 as [files|fs ks tracked Hr [IHk IHi] Hperm].
  - split; intros k st Hst; apply New_lookup in Hst as ->; [done|].
    split; simpl; done.
  - rewrite tick_order_tracked by done. split.
    + by apply keyed_by_path_fmap.
    + intros k st. rewrite lookup_fmap.
      destruct (tracked !! k) as [old|] eqn:E; [|done].
      simpl. intros [= <-]. apply next_state_inv. by apply (IHi k old).
Qed.

Lemma reachable_keyed tracked : reachable tracked -> keyed_by_path tracked.
Proof. intros H. by apply reachable_wf in H as [? _]. Qed.

Lemma tick_tracked fs tracked :
  keyed_by_path tracked -> (tick fs tracked).1 = next_state fs <$> tracked.
Proof. intros Hk. by apply tick_order_tracked. Qed.

Lemma tick_lookup fs tracked p st :
  keyed_by_path tracked -> tracked !! p = Some st ->
  (tick fs tracked).1 !! p = Some (next_state fs st).
Proof. intros Hk Hp. by rewrite tick_tracked, lookup_fmap, Hp. Qed.

Lemma tick_events_for fs tracked p st :
  keyed_by_path tracked -> tracked !! p = Some st ->
  events_for p (tick fs tracked).2 = events_of (sends fs st).
Proof.
  intros Hk Hp. unfold tick. by rewrite tick_order_events_for, Hp.
Qed.

Lemma tick_sends_elem fs tracked p st m :
  keyed_by_path tracked -> tracked !! p = Some st ->
  m ∈ sends fs st -> m ∈ (tick fs tracked).2.
Proof.
  intros Hk Hp Hm. unfold tick. rewrite tick_order_sends by done.
  apply list_elem_of_In, in_flat_map. exists p. split.
  - apply list_elem_of_In, elem_of_keys. by exists st.
  - rewrite Hp. simpl. by apply list_elem_of_In.
Qed.

Lemma reachable_tick_default fs tracked :
  reachable tracked -> reachable (tick fs tracked).1.
Proof. intros H. by apply reachable_tick. Qed.

End Reachable.

(** * The properties of the design document *)

Section Properties.
Context {fp : Filepath}.
Implicit Types (fs : FS) (st : state) (tracked : gmap string state).

Lemma entry_at_most_one_event fs st : (length (events_of (sends fs st)) <= 1)%nat.
Proof.
  unfold sends.
  destruct (Lstat fs (path st)) as [i|e] eqn:HL.
  - destruct (is_symlink i) eqn:HS.
    + destruct (Readlink fs (path st)) as [t|e] eqn:HR.
      * destruct (Stat fs (resolve (path st) t)) as [ti|e] eqn:HT.
        -- rewrite (tick_entry_target_present fs st i t ti) by done. simpl.
           destruct (targetInfo st); [|simpl; lia].
           case_match; simpl; lia.
        -- rewrite (tick_entry_target_stat_error fs st i t e) by done. simpl.
           destruct (chain_has_PathError e), (targetInfo st); simpl; lia.
      * rewrite (tick_entry_readlink_error fs st i e) by done. simpl. lia.
    + rewrite (tick_entry_not_symlink fs st i) by done. simpl.
      destruct (info st); [|simpl; lia].
      case_match; simpl; lia.
  - destruct (IsNotExist (Some e)) eqn:HN.
    + rewrite (tick_entry_not_exist fs st e) by done.
      destruct (info st); simpl; lia.
    + rewrite (tick_entry_lstat_error fs st e) by done. simpl. lia.
Qed.

(** C5. When the lstat of a tracked path fails with an error that is not
    not-found, the error is sent on the Errors channel, no event is sent for
    the path in that cycle, and the path's entry is left as it was. *)
Theorem lstat_error_is_surfaced_and_state_kept fs tracked p st e :
  reachable tracked -> tracked !! p = Some st ->
  Lstat fs p = Fail e -> IsNotExist (Some e) = false ->
  sends fs st = [sendError e] /\
  sendError e ∈ (tick fs tracked).2 /\
  events_for p (tick fs tracked).2 = [] /\
  (tick fs tracked).1 !! p = Some st.
Proof.
  intros Hr Hp HL HN. apply reachable_keyed in Hr.
  assert (path st = p) as Hpath by (by apply (Hr p st)).
  assert (tick_entry fs st = (None, [sendError e])) as Hte.
  { apply tick_entry_lstat_error; by rewrite ?Hpath. }
  assert (sends fs st = [sendError e]) as Hs by (unfold sends; by rewrite Hte).
  split; [done|]. split; [|split].
  - apply (tick_sends_elem fs tracked p st); [done..|].
    rewrite Hs. by left.
  - rewrite (tick_events_for fs tracked p st) by done. by rewrite Hs.
  - rewrite (tick_lookup fs tracked p st) by done.
    unfold next_state. by rewrite Hte.
Qed.

(** C7. When a tracked path is a symlink and reading its link text fails,
    the iteration sends nothing (no event, no error) and the entry,
    target fields included, is left as it was. *)
Theorem readlink_failure_is_skipped fs tracked p st i e :
  reachable tracked -> tracked !! p = Some st ->
  Lstat fs p = Ok i -> is_symlink i = true -> Readlink fs p = Fail e ->
  sends fs st = [] /\
  events_for p (tick fs tracked).2 = [] /\
  (tick fs tracked).1 !! p = Some st.
Proof.
  intros Hr Hp HL HS HR. apply reachable_keyed in Hr.
  assert (path st = p) as Hpath by (by apply (Hr p st)).
  assert (tick_entry fs st = (None, [])) as Hte.
  { apply (tick_entry_readlink_error fs st i e); by rewrite ?Hpath. }
  assert (sends fs st = []) as Hs by (unfold sends; by rewrite Hte).
  split; [done|]. split.
  - rewrite (tick_events_for fs tracked p st) by done. by rewrite Hs.
  - rewrite (tick_lookup fs tracked p st) by done.
    unfold next_state. by rewrite Hte.
Qed.

(** C8. In every registry reachable from [New] by poll cycles, every
    entry satisfies the invariants of the data model: a nil [info] comes
    with an empty [target] and a nil [targetInfo], and a non-nil
    [targetInfo] comes with an [info] that is a symlink. *)
Theorem reachable_entries_satisfy_invariants tracked p st :
  reachable tracked -> tracked !! p = Some st ->
  (info st = None -> target st = "" /\ targetInfo st = None) /\
  (forall ti, targetInfo st = Some ti ->
     exists i, info st = Some i /\ is_symlink i = true).
Proof.
  intros Hr Hp. apply reachable_wf in Hr as [_ Hinv].
  by apply (Hinv p st).
Qed.

Lemma created_op_bits (size : Z) :
  Has (created_op size) Create = true /\
  (Has (created_op size) Write = true <-> 0 < size) /\
  Has (created_op size) Remove = false.
Proof.
  unfold created_op. destruct (Z.ltb_spec 0 size) as [Hlt|Hge].
  - split; [done|]. split; [|done]. by split.
  - split; [done|]. split; [|done].
    split; [intros H; discriminate H | lia].
Qed.



(** C6. When a tracked path whose stored [info] is nil is found to exist
    and not to be a symlink, or a tracked symlink whose stored
    [targetInfo] is nil resolves to an existing target, the cycle sends
    exactly one event for the path; it has the Create bit, it has the Write
    bit exactly when the observed size (of the file, or of the link's
    target) is greater than zero, and it has no Remove bit. *)
Theorem create_when_first_seen fs tracked p st size :
  reachable tracked -> tracked !! p = Some st ->
  (info st = None /\ exists i, seen_as_file fs p i /\ Size i = size) \/
  (targetInfo st = None /\ exists t ti, seen_as_link_to fs p t ti /\ Size ti = size) ->
  exists o,
    events_for p (tick fs tracked).2 = [{| Name := p; op := o |}] /\
    o = (if Z.ltb 0 size then Z.lor Create Write else Create) /\
    Has o Create = true /\
    (Has o Write = true <-> 0 < size) /\
    Has o Remove = false.
Proof.
  intros Hr Hp Hcase. apply reachable_keyed in Hr.
  assert (path st = p) as Hpath by (by apply (Hr p st)). subst p.
  rewrite (tick_events_for fs tracked (path st) st) by done.
  exists (created_op size). split; [|split; [done|apply created_op_bits]].
  unfold sends.
  destruct Hcase as [(Hnil & i & (HL & HS) & <-)|(Hnil & t & ti & (i & HL & HS & HR & HT) & <-)].
  - rewrite (tick_entry_not_symlink fs st i) by done. simpl. by rewrite Hnil.
  - rewrite (tick_entry_target_present fs st i t ti) by done. simpl. by rewrite Hnil.
Qed.

(** C10. A tracked path stored as an existing regular file ([info] non-nil
    and not a symlink, [targetInfo] nil) that the next cycle finds to be a
    symlink to an existing target gets one event in that cycle: a Create,
    with Write exactly when the target's size is greater than zero, and
    without Remove. *)
Theorem file_turned_symlink_is_created fs tracked p st oldInfo t ti :
  reachable tracked -> tracked !! p = Some st ->
  info st = Some oldInfo -> is_symlink oldInfo = false -> targetInfo st = None ->
  seen_as_link_to fs p t ti ->
  exists o,
    events_for p (tick fs tracked).2 = [{| Name := p; op := o |}] /\
    o = (if Z.ltb 0 (Size ti) then Z.lor Create Write else Create) /\
    Has o Create = true /\
    (Has o Write = true <-> 0 < Size ti) /\
    Has o Remove = false.
Proof.
  intros Hr Hp Hinfo Hreg Hnil (i & HL & HS & HR & HT). apply reachable_keyed in Hr.
  assert (path st = p) as Hpath by (by apply (Hr p st)). subst p.
  rewrite (tick_events_for fs tracked (path st) st) by done.
  exists (created_op (Size ti)). split; [|split; [done|apply created_op_bits]].
  unfold sends. rewrite (tick_entry_target_present fs st i t ti) by done.
  simpl. by rewrite Hnil.
Qed.

Lemma tick_entry_same_outcomes fs1 fs2 st :
  same_outcomes fs1 fs2 (path st) -> tick_entry fs2 st = tick_entry fs1 st.
Proof.
  intros (HL & HR & HT). unfold resolve in HT. unfold tick_entry.
  rewrite <- HL. destruct (Lstat fs1 (path st)) as [i|e]; [|done].
  simpl. case_match; [|done].
  rewrite <- HR. destruct (Readlink fs1 (path st)) as [t|e] eqn:E; [|done].
  by rewrite <- HT.
Qed.

(** A second iteration on the same outcomes stores what the first one
    stored and sends no event. *)
Lemma entry_idempotent fs st :
  next_state fs (next_state fs st) = next_state fs st /\
  events_of (sends fs (next_state fs st)) = [].
Proof.
  unfold sends.
  destruct (Lstat fs (path st)) as [i|e] eqn:HL.
  - destruct (is_symlink i) eqn:HS.
    + destruct (Readlink fs (path st)) as [t|e] eqn:HR.
      * destruct (Stat fs (resolve (path st) t)) as [ti|e] eqn:HT.
        -- assert (next_state fs st =
                   {| path := path st; info := Some i;
                      target := resolve (path st) t; targetInfo := Some ti |}) as ->.
           { unfold next_state. by rewrite (tick_entry_target_present fs st i t ti). }
           unfold next_state.
           rewrite (tick_entry_target_present fs _ i t ti) by done. simpl.
           by rewrite String.eqb_refl, Z.eqb_refl, Time_eqb_refl.
        -- assert (next_state fs st =
                   {| path := path st; info := Some i;
                      target := resolve (path st) t; targetInfo := None |}) as ->.
           { unfold next_state. by rewrite (tick_entry_target_stat_error fs st i t e). }
           unfold next_state.
           rewrite (tick_entry_target_stat_error fs _ i t e) by done. simpl.
           by destruct (chain_has_PathError e).
      * assert (next_state fs st = st) as ->.
        { unfold next_state. by rewrite (tick_entry_readlink_error fs st i e). }
        unfold next_state. by rewrite (tick_entry_readlink_error fs st i e).
    + assert (next_state fs st =
              {| path := path st; info := Some i; target := ""; targetInfo := None |}) as ->.
      { unfold next_state. by rewrite (tick_entry_not_symlink fs st i). }
      unfold next_state.
      rewrite (tick_entry_not_symlink fs _ i) by done. simpl.
      by rewrite Z.eqb_refl, Time_eqb_refl.
  - destruct (IsNotExist (Some e)) eqn:HN.
    + destruct (info st) as [oldInfo|] eqn:Hi.
      * assert (next_state fs st = empty_state (path st)) as ->.
        { unfold next_state. rewrite (tick_entry_not_exist fs st e) by done.
          by rewrite Hi. }
        unfold next_state. by rewrite (tick_entry_not_exist fs _ e).
      * assert (tick_entry fs st = (None, [])) as Hte.
        { rewrite (tick_entry_not_exist fs st e) by done. by rewrite Hi. }
        assert (next_state fs st = st) as -> by (unfold next_state; by rewrite Hte).
        unfold next_state. by rewrite Hte.
    + assert (next_state fs st = st) as ->.
      { unfold next_state. by rewrite (tick_entry_lstat_error fs st e). }
      unfold next_state. by rewrite (tick_entry_lstat_error fs st e).
Qed.

(** C9. When the calls made for a tracked path have the same outcomes in
    two consecutive poll cycles, the second cycle leaves the path's entry
    as the first cycle left it and sends no event for the path. *)
Theorem unchanged_outcomes_change_nothing fs1 fs2 tracked p :
  reachable tracked -> same_outcomes fs1 fs2 p ->
  (tick fs2 (tick fs1 tracked).1).1 !! p = (tick fs1 tracked).1 !! p /\
  events_for p (tick fs2 (tick fs1 tracked).1).2 = [].
Proof.
  intros Hr Hsame. apply reachable_keyed in Hr.
  assert (keyed_by_path (tick fs1 tracked).1) as Hk1.
  { rewrite tick_tracked by done. by apply keyed_by_path_fmap. }
  destruct (tracked !! p) as [st|] eqn:Hp.
  - assert (path st = p) as Hpath by (by apply (Hr p st)).
    pose proof (tick_lookup fs1 tracked p st Hr Hp) as H1.
    assert (tick_entry fs2 (next_state fs1 st) = tick_entry fs1 (next_state fs1 st)) as Hte.
    { apply tick_entry_same_outcomes. by rewrite path_next_state, Hpath. }
    destruct (entry_idempotent fs1 st) as [Hst Hev].
    split.
    + rewrite (tick_lookup fs2 _ p _ Hk1 H1), H1. f_equal.
      unfold next_state at 1. rewrite Hte. apply Hst.
    + rewrite (tick_events_for fs2 _ p _ Hk1 H1).
      unfold sends. rewrite Hte. apply Hev.
  - assert ((tick fs1 tracked).1 !! p = None) as H1.
    { by rewrite tick_tracked, lookup_fmap, Hp. }
    split.
    + by rewrite (tick_tracked fs2), lookup_fmap, H1.
    + unfold tick at 1. rewrite tick_order_events_for by done. by rewrite H1.
Qed.

(** The scan decides the order property. *)
Lemma alternates_sound (ops : list Op) : forall removed,
  alternates removed ops = true ->
  ~ Remove_twice_in_a_row ops /\
  (removed = true ->
   ~ exists l1 r l2, ops = l1 ++ r :: l2 /\ Has r Remove = true /\
                     Forall (fun o => Has o Create = false) l1).
Proof.
  induction ops as [|o rest IH]; intros removed Halt.
  - split.
    + intros (l1 & r1 & mid & r2 & l2 & Heq & _). by destruct l1.
    + intros _ (l1 & r & l2 & Heq & _). by destruct l1.
  - simpl in Halt. destruct (Has o Remove) eqn:HR.
    + apply andb_true_iff in Halt as [Hb Halt]. apply negb_true_iff in Hb.
      destruct (IH true Halt) as [IH1 IH2]. split; [|by rewrite Hb].
      intros (l1 & r1 & mid & r2 & l2 & Heq & H1 & H2 & Hmid).
      destruct l1 as [|x l1]; simpl in Heq; simplify_eq.
      * apply IH2; [done|]. by exists mid, r2, l2.
      * apply IH1. by exists l1, r1, mid, r2, l2.
    + destruct (Has o Create) eqn:HC.
      * destruct (IH false Halt) as [IH1 _]. split.
        -- intros (l1 & r1 & mid & r2 & l2 & Heq & H1 & H2 & Hmid).
           destruct l1 as [|x l1]; simpl in Heq; simplify_eq; [congruence|].
           apply IH1. by exists l1, r1, mid, r2, l2.
        -- intros _ (l1 & r & l2 & Heq & H1 & Hl1).
           destruct l1 as [|x l1]; simpl in Heq; simplify_eq; [congruence|].
           apply Forall_cons in Hl1 as [Hx _]. congruence.
      * destruct (IH removed Halt) as [IH1 IH2]. split.
        -- intros (l1 & r1 & mid & r2 & l2 & Heq & H1 & H2 & Hmid).
           destruct l1 as [|x l1]; simpl in Heq; simplify_eq; [congruence|].
           apply IH1. by exists l1, r1, mid, r2, l2.
        -- intros Hrem (l1 & r & l2 & Heq & H1 & Hl1).
           destruct l1 as [|x l1]; simpl in Heq; simplify_eq; [congruence|].
           apply Forall_cons in Hl1 as [_ Hl1].
           apply IH2; [done|]. by exists l1, r, l2.
Qed.

Lemma created_op_scan (size : Z) (removed : bool) (rest : list Op) :
  alternates removed (created_op size :: rest) = alternates false rest.
Proof.
  destruct (created_op_bits size) as (HC & _ & HR). simpl. by rewrite HR, HC.
Qed.

(** One iteration keeps the scan going, provided the cycle does not find
    the path to be a symlink whose target cannot be stat'ed. *)
Lemma entry_alternates fs st removed :
  pending_ok st removed -> target_stat_fails fs (path st) = false ->
  exists removed',
    pending_ok (next_state fs st) removed' /\
    forall rest,
      alternates removed' rest = true ->
      alternates removed ((op <$> events_of (sends fs st)) ++ rest) = true.
Proof.
  intros [Hrem Hnil] Hok. unfold target_stat_fails in Hok. unfold next_state, sends.
  destruct (Lstat fs (path st)) as [i|e] eqn:HL.
  - destruct (is_symlink i) eqn:HS.
    + destruct (Readlink fs (path st)) as [t|e] eqn:HR.
      * destruct (Stat fs (resolve (path st) t)) as [ti|e] eqn:HT; [|done].
        rewrite (tick_entry_target_present fs st i t ti) by done. simpl.
        destruct (targetInfo st) as [oldTi|] eqn:Hti.
        -- exists false. split; [by split|]. intros rest Hrest.
           assert (removed = false) as ->.
           { destruct removed; [|done]. by specialize (Hnil (Hrem eq_refl)). }
           by destruct (negb (String.eqb (target st) _) || _ || _).
        -- exists false. split; [by split|]. intros rest Hrest.
           change (alternates removed (created_op (Size ti) :: rest) = true).
           by rewrite created_op_scan.
      * rewrite (tick_entry_readlink_error fs st i e) by done. simpl.
        exists removed. by split.
    + rewrite (tick_entry_not_symlink fs st i) by done. simpl.
      destruct (info st) as [oldInfo|] eqn:Hi.
      * exists false. split; [by split|]. intros rest Hrest.
        assert (removed = false) as ->.
        { destruct removed; [|done]. by specialize (Hrem eq_refl). }
        by destruct (negb (Time_eqb (ModTime i) (ModTime oldInfo)) || _).
      * exists false. split; [by split|]. intros rest Hrest.
        change (alternates removed (created_op (Size i) :: rest) = true).
        by rewrite created_op_scan.
  - destruct (IsNotExist (Some e)) eqn:HN.
    + rewrite (tick_entry_not_exist fs st e) by done.
      destruct (info st) as [oldInfo|] eqn:Hi; simpl.
      * exists true. split; [by split|]. intros rest Hrest.
        assert (removed = false) as ->.
        { destruct removed; [|done]. by specialize (Hrem eq_refl). }
        done.
      * exists removed. split; [|done]. split; [done|]. intros _. by apply Hnil.
    + rewrite (tick_entry_lstat_error fs st e) by done. simpl.
      exists removed. by split.
Qed.

Lemma ops_for_app p (a b : list msg) : ops_for p (a ++ b) = ops_for p a ++ ops_for p b.
Proof. unfold ops_for. by rewrite events_for_app, fmap_app. Qed.

Lemma run_alternates (fss : list FS) p : forall tracked removed,
  keyed_by_path tracked ->
  (forall st, tracked !! p = Some st -> pending_ok st removed) ->
  Forall (fun fs => target_stat_fails fs p = false) fss ->
  alternates removed (ops_for p (run fss tracked).2) = true.
Proof.
  induction fss as [|fs fss IH]; intros tracked removed Hk Hinv Hfss; [done|].
  apply Forall_cons in Hfss as [Hfs Hfss]. simpl. rewrite ops_for_app.
  assert (keyed_by_path (tick fs tracked).1) as Hk1.
  { rewrite tick_tracked by done. by apply keyed_by_path_fmap. }
  destruct (tracked !! p) as [st|] eqn:Hp.
  - assert (path st = p) as Hpath by (by apply (Hk p st)).
    destruct (entry_alternates fs st removed) as (removed' & Hinv' & Hscan).
    { by apply Hinv. }
    { by rewrite Hpath. }
    unfold ops_for at 1. rewrite (tick_events_for fs tracked p st) by done.
    apply Hscan. apply IH; [done| |done].
    intros st'. rewrite (tick_lookup fs tracked p st) by done. by intros [= <-].
  - unfold ops_for at 1. unfold tick at 1.
    rewrite tick_order_events_for by done. rewrite Hp. simpl.
    apply IH; [done| |done].
    intros st'. by rewrite tick_tracked, lookup_fmap, Hp.
Qed.

(** A consequence for whole runs: over any number of poll cycles from
    [New] in which no cycle finds the path to be a symlink whose resolved
    target cannot be stat'ed, the operations reported for a path never
    contain two Removes without a Create between them. *)
Lemma no_Remove_twice_without_dangling_symlink (trackedFiles : list string) fss p :
  Forall (fun fs => target_stat_fails fs p = false) fss ->
  ~ Remove_twice_in_a_row (ops_for p (run fss (New trackedFiles)).2).
Proof.
  intros Hfss. apply (alternates_sound _ false).
  apply run_alternates; [|
    |done].
  - apply reachable_keyed. constructor.
  - intros st Hst. apply New_lookup in Hst as ->. by split.
Qed.

End Properties.

(** * Further properties of the watcher *)

Section Construction.
Implicit Types (st : state) (files : list string).

Lemma New_fold_lookup_full files : forall (acc : gmap string state) k,
  foldl (fun tracked f => <[f := empty_state f]> tracked) acc files !! k =
  if decide (k ∈ files) then Some (empty_state k) else acc !! k.
Proof.
  induction files as [|f files IH]; intros acc k; simpl; [done|].
  rewrite IH. destruct (decide (k ∈ files)) as [Hin|Hout].
  - by rewrite decide_True by (by right).
  - destruct (decide (f = k)) as [->|Hne].
    + rewrite decide_True by (by left). by rewrite lookup_insert_eq.
    + rewrite lookup_insert_ne by done.
      rewrite decide_False; [done|]. intros [->|?]%elem_of_cons; done.
Qed.

(** X1. The registry [New] builds has exactly the listed paths as keys,
    each with the empty state under its own path; nothing else is tracked. *)
Theorem New_lookup_listed files p :
  New files !! p = if decide (p ∈ files) then Some (empty_state p) else None.
Proof. unfold New. by rewrite (New_fold_lookup_full files ∅ p), lookup_empty. Qed.

(** X2. [New] depends only on which paths are listed: order and
    repetitions in the list make no difference to the registry. *)
Theorem New_same_paths_same_registry (l1 l2 : list string) :
  (forall x, x ∈ l1 <-> x ∈ l2) -> New l1 = New l2.
Proof.
  intros Hsame. apply map_eq. intros k. rewrite !New_lookup_listed.
  destruct (decide (k ∈ l1)) as [H1|H1], (decide (k ∈ l2)) as [H2|H2];
    try done; exfalso; [apply H2|apply H1]; by apply Hsame.
Qed.

Lemma dom_New files : dom (New files) = (list_to_set files : gset string).
Proof.
  apply set_eq. intros x.
  rewrite elem_of_dom, New_lookup_listed, elem_of_list_to_set.
  destruct (decide (x ∈ files)) as [Hin|Hout].
  - split; [done|]. intros _. by eexists.
  - split; [|done]. by intros [? ?].
Qed.

(** X3. [Has] sees a bit of a combined mask exactly when one of the
    combined masks has it, for an [Op] and for an [Event] alike. *)
Theorem Has_lor (a b h : Op) (n : string) :
  Has (Z.lor a b) h = Has a h || Has b h /\
  Event_Has {| Name := n; op := Z.lor a b |} h =
    Event_Has {| Name := n; op := a |} h || Event_Has {| Name := n; op := b |} h.
Proof.
  assert (Has (Z.lor a b) h = Has a h || Has b h) as Hop.
  { unfold Has. rewrite Z.land_lor_distr_l.
    destruct (Z.eqb_spec (Z.land a h) 0) as [Ha|Ha],
             (Z.eqb_spec (Z.land b h) 0) as [Hb|Hb]; simpl.
    - rewrite Ha, Hb. done.
    - apply negb_true_iff, Z.eqb_neq. rewrite Z.lor_eq_0_iff. tauto.
    - apply negb_true_iff, Z.eqb_neq. rewrite Z.lor_eq_0_iff. tauto.
    - apply negb_true_iff, Z.eqb_neq. rewrite Z.lor_eq_0_iff. tauto. }
  split; [done|]. unfold Event_Has. simpl. done.
Qed.

(** X4. Whatever the earlier options do to the watcher, a final
    [WithInterval d] decides the outcome of [New]: it panics when [d] is
    not positive; otherwise it returns, with a nil error, the watcher whose
    interval is [d], whose ticker is made from [d] and whose registry is
    the one built from the listed files. *)
Theorem NewWatcher_last_option_wins (testing : bool) files (pre : list Option) (d : Z) :
  NewWatcher testing files (pre ++ [WithInterval d]) =
  if Z.leb d 0 then Panics
  else Returns ({| tracked := New files; interval := d; ticker := Tick d |}, None).
Proof. unfold NewWatcher. by rewrite foldl_snoc. Qed.

Lemma WithInterval_fold (ds : list Z) : forall w,
  interval (foldl (fun w option => option w) w (WithInterval <$> ds)) =
  default (interval w) (last ds).
Proof.
  induction ds as [|d ds IH] using rev_ind; intros w; [done|].
  by rewrite fmap_app, foldl_app, last_snoc.
Qed.

(** X5. With only [WithInterval] options, the interval of the watcher is
    the value of the last one, and five seconds, or fifty milliseconds
    under test, when there is none; [New] panics when that value is not
    positive and returns the watcher with a nil error otherwise. *)
Theorem NewWatcher_interval (testing : bool) files (ds : list Z) :
  NewWatcher testing files (WithInterval <$> ds) =
  let d := default (if testing then 50000000 else 5000000000) (last ds) in
  if Z.leb d 0 then Panics
  else Returns ({| tracked := New files; interval := d; ticker := Tick d |}, None).
Proof.
  unfold NewWatcher. cbn [interval]. rewrite WithInterval_fold. cbn [interval].
  by destruct testing.
Qed.

End Construction.

Section Cycles.
Context {fp : Filepath}.
Implicit Types (fs : FS) (st : state) (tracked : gmap string state).

Lemma tick_sends_inv fs tracked m :
  keyed_by_path tracked -> m ∈ (tick fs tracked).2 ->
  exists k st, tracked !! k = Some st /\ m ∈ sends fs st.
Proof.
  intros Hk Hm. unfold tick in Hm. rewrite tick_order_sends in Hm by done.
  apply list_elem_of_In, in_flat_map in Hm as (k & Hin & Hm).
  destruct (tracked !! k) as [st|] eqn:E; simpl in Hm; [|done].
  exists k, st. split; [done|]. by apply list_elem_of_In.
Qed.

Lemma tick_keyed fs tracked : keyed_by_path tracked -> keyed_by_path (tick fs tracked).1.
Proof. intros Hk. rewrite tick_tracked by done. by apply keyed_by_path_fmap. Qed.

Lemma run_keyed (fss : list FS) : forall tracked,
  keyed_by_path tracked -> keyed_by_path (run fss tracked).1.
Proof.
  induction fss as [|fs fss IH]; intros tracked Hk; simpl; [done|].
  by apply IH, tick_keyed.
Qed.

Lemma run_dom (fss : list FS) : forall tracked,
  keyed_by_path tracked -> dom (run fss tracked).1 = dom tracked.
Proof.
  induction fss as [|fs fss IH]; intros tracked Hk; simpl; [done|].
  rewrite IH by (by apply tick_keyed). rewrite tick_tracked by done.
  apply dom_fmap_L.
Qed.

Lemma run_sends_inv (fss : list FS) : forall tracked m,
  keyed_by_path tracked -> m ∈ (run fss tracked).2 ->
  exists fs k st, is_Some (tracked !! k) /\ path st = k /\ m ∈ sends fs st.
Proof.
  induction fss as [|fs fss IH]; intros tracked m Hk Hm; simpl in Hm.
  - by apply elem_of_nil in Hm.
  - apply elem_of_app in Hm as [Hm|Hm].
    + apply tick_sends_inv in Hm as (k & st & Hst & Hm); [|done].
      exists fs, k, st. split; [by exists st|]. split; [by apply (Hk k st)|done].
    + apply IH in Hm as (fs' & k & st & Hsome & Hp & Hm); [|by apply tick_keyed].
      exists fs', k, st. split; [|done].
      rewrite tick_tracked, lookup_fmap in Hsome by done.
      by apply fmap_is_Some in Hsome.
Qed.

(** X6. The set of tracked paths never changes: after any number of poll
    cycles the registry has exactly the paths given to [New] as keys. *)
Theorem registry_keys_are_fixed (trackedFiles : list string) (fss : list FS) :
  dom (run fss (New trackedFiles)).1 = (list_to_set trackedFiles : gset string).
Proof.
  rewrite run_dom by (apply reachable_keyed; constructor). apply dom_New.
Qed.

(** X7. Every event any poll cycle sends carries as its [Name] one of the
    paths given to [New]. *)
Theorem event_names_are_tracked_files (trackedFiles : list string) (fss : list FS) e :
  sendEvent e ∈ (run fss (New trackedFiles)).2 -> Name e ∈ trackedFiles.
Proof.
  intros He. apply run_sends_inv in He as (fs & k & st & Hsome & Hp & He).
  - apply sends_Name in He. rewrite He, Hp.
    destruct Hsome as [st0 Hst0]. rewrite New_lookup_listed in Hst0.
    by destruct (decide (k ∈ trackedFiles)).
  - apply reachable_keyed. constructor.
Qed.

Lemma entry_ops fs st e :
  sendEvent e ∈ sends fs st ->
  op e = Create \/ op e = Z.lor Create Write \/ op e = Write \/ op e = Remove.
Proof.
  assert (forall size, created_op size = Create \/ created_op size = Z.lor Create Write) as Hc.
  { intros size. unfold created_op. destruct (Z.ltb 0 size); [by right|by left]. }
  unfold sends.
  destruct (Lstat fs (path st)) as [i|e0] eqn:HL.
  - destruct (is_symlink i) eqn:HS.
    + destruct (Readlink fs (path st)) as [t|e0] eqn:HR.
      * destruct (Stat fs (resolve (path st) t)) as [ti|e0] eqn:HT.
        -- rewrite (tick_entry_target_present fs st i t ti) by done. simpl.
           destruct (targetInfo st).
           ++ destruct (negb (String.eqb (target st) _) || _ || _).
              ** intros Hin%list_elem_of_singleton. simplify_eq. simpl. tauto.
              ** by intros ?%elem_of_nil.
           ++ intros Hin%list_elem_of_singleton. simplify_eq. simpl.
              destruct (Hc (Size ti)); tauto.
        -- rewrite (tick_entry_target_stat_error fs st i t e0) by done. simpl.
           destruct (chain_has_PathError e0), (targetInfo st);
             intros Hin; try (by apply elem_of_nil in Hin);
             apply list_elem_of_singleton in Hin; simplify_eq; simpl; tauto.
      * rewrite (tick_entry_readlink_error fs st i e0) by done.
        by intros ?%elem_of_nil.
    + rewrite (tick_entry_not_symlink fs st i) by done. simpl.
      destruct (info st).
      * destruct (negb (Time_eqb (ModTime i) _) || _).
        -- intros Hin%list_elem_of_singleton. simplify_eq. simpl. tauto.
        -- by intros ?%elem_of_nil.
      * intros Hin%list_elem_of_singleton. simplify_eq. simpl.
        destruct (Hc (Size i)); tauto.
  - destruct (IsNotExist (Some e0)) eqn:HN.
    + rewrite (tick_entry_not_exist fs st e0) by done.
      destruct (info st); simpl.
      * intros Hin%list_elem_of_singleton. simplify_eq. simpl. tauto.
      * by intros ?%elem_of_nil.
    + rewrite (tick_entry_lstat_error fs st e0) by done. simpl.
      intros Hin%list_elem_of_singleton. simplify_eq.
Qed.

(** X8. The bitmask of every event the watcher sends is one of four:
    Create, Create|Write, Write or Remove. Remove is never combined with
    another bit, and no event has an empty mask. *)
Theorem event_ops_are_one_of_four (trackedFiles : list string) (fss : list FS) e :
  sendEvent e ∈ (run fss (New trackedFiles)).2 ->
  op e = Create \/ op e = Z.lor Create Write \/ op e = Write \/ op e = Remove.
Proof.
  intros He. apply run_sends_inv in He as (fs & k & st & _ & _ & He).
  - by apply entry_ops in He.
  - apply reachable_keyed. constructor.
Qed.

(** X9. A watcher for no files never sends anything and its registry
    stays empty, whatever the file system looks like. *)
Theorem empty_watcher_is_silent (fss : list FS) : run fss (New []) = (∅, []).
Proof.
  assert (forall fs, tick fs ∅ = (∅, [])) as Ht.
  { intros fs. unfold tick, keys. by rewrite map_to_list_empty. }
  change (New []) with (∅ : gmap string state).
  induction fss as [|fs fss IH]; [done|].
  cbn [run]. rewrite Ht. cbn [fst snd]. by rewrite IH.
Qed.

(** X10. Every entry of a reachable registry carries the key it is stored
    under as its [path]: poll cycles never rewrite it. *)
Theorem reachable_entries_keep_their_path tracked p st :
  reachable tracked -> tracked !! p = Some st -> path st = p.
Proof. intros Hr Hp. apply reachable_keyed in Hr. by apply (Hr p st). Qed.

(** X11. When a tracked path that was seen before is no longer found, the
    cycle sends exactly one Remove event for it and resets its entry to the
    empty state. *)
Theorem removed_path_is_reported_and_forgotten fs tracked p st oldInfo e :
  reachable tracked -> tracked !! p = Some st ->
  info st = Some oldInfo ->
  Lstat fs p = Fail e -> IsNotExist (Some e) = true ->
  sends fs st = [sendEvent {| Name := p; op := Remove |}] /\
  events_for p (tick fs tracked).2 = [{| Name := p; op := Remove |}] /\
  (tick fs tracked).1 !! p = Some (empty_state p).
Proof.
  intros Hr Hp Hi HL HN. apply reachable_keyed in Hr.
  assert (path st = p) as Hpath by (by apply (Hr p st)). subst p.
  assert (tick_entry fs st =
          (Some (empty_state (path st)),
           [sendEvent {| Name := path st; op := Remove |}])) as Hte.
  { rewrite (tick_entry_not_exist fs st e) by done. by rewrite Hi. }
  assert (sends fs st = [sendEvent {| Name := path st; op := Remove |}]) as Hs.
  { unfold sends. by rewrite Hte. }
  split; [done|]. split.
  - rewrite (tick_events_for fs tracked (path st) st) by done. by rewrite Hs.
  - rewrite (tick_lookup fs tracked (path st) st) by done.
    unfold next_state. by rewrite Hte.
Qed.

(** X12. A tracked path that has not been seen and is still not found
    stays silent: the iteration sends nothing and the entry is untouched. *)
Theorem unseen_absent_path_is_silent fs tracked p st e :
  reachable tracked -> tracked !! p = Some st ->
  info st = None ->
  Lstat fs p = Fail e -> IsNotExist (Some e) = true ->
  sends fs st = [] /\ (tick fs tracked).1 !! p = Some st.
Proof.
  intros Hr Hp Hi HL HN. apply reachable_keyed in Hr.
  assert (path st = p) as Hpath by (by apply (Hr p st)). subst p.
  assert (tick_entry fs st = (None, [])) as Hte.
  { rewrite (tick_entry_not_exist fs st e) by done. by rewrite Hi. }
  split.
  - unfold sends. by rewrite Hte.
  - rewrite (tick_lookup fs tracked (path st) st) by done.
    unfold next_state. by rewrite Hte.
Qed.

Lemma file_changed_spec (i oldInfo : FileInfo) :
  negb (Time_eqb (ModTime i) (ModTime oldInfo)) || negb (Z.eqb (Size i) (Size oldInfo)) = true <->
  ModTime i <> ModTime oldInfo \/ Size i <> Size oldInfo.
Proof.
  rewrite !orb_true_iff, !negb_true_iff.
  rewrite <- !not_true_iff_false, Z.eqb_eq, Time_eqb_eq. tauto.
Qed.

(** X13. For a tracked path seen before and now found not to be a
    symlink, the cycle sends exactly one Write event if and only if the
    modification time or the size differs from the stored one, and no
    event if and only if neither differs; either way the entry now holds
    the new [info] and no target. *)
Theorem file_write_iff_changed fs tracked p st oldInfo i :
  reachable tracked -> tracked !! p = Some st ->
  info st = Some oldInfo ->
  seen_as_file fs p i ->
  (events_for p (tick fs tracked).2 = [{| Name := p; op := Write |}] <->
   ModTime i <> ModTime oldInfo \/ Size i <> Size oldInfo) /\
  (events_for p (tick fs tracked).2 = [] <->
   ~ (ModTime i <> ModTime oldInfo \/ Size i <> Size oldInfo)) /\
  (tick fs tracked).1 !! p =
    Some {| path := p; info := Some i; target := ""; targetInfo := None |}.
Proof.
  intros Hr Hp Hi [HL HS]. apply reachable_keyed in Hr.
  assert (path st = p) as Hpath by (by apply (Hr p st)). subst p.
  rewrite (tick_events_for fs tracked (path st) st) by done.
  rewrite (tick_lookup fs tracked (path st) st) by done.
  unfold sends, next_state. rewrite (tick_entry_not_symlink fs st i) by done.
  simpl. rewrite Hi. rewrite <- file_changed_spec.
  destruct (negb (Time_eqb (ModTime i) (ModTime oldInfo)) || _);
    simpl; (split; [|split]); try done; split; try done; intros H; by try destruct H.
Qed.

(** X14. When the target of a tracked symlink was present at the previous
    observation and [os.Stat] now reports it as not found, the cycle sends
    exactly one Remove event for the symlink's path; the entry keeps the
    symlink's [info] and the resolved target path and loses its
    [targetInfo]. *)
Theorem vanished_target_is_reported fs tracked p st oldTi i t e :
  reachable tracked -> tracked !! p = Some st ->
  targetInfo st = Some oldTi ->
  Lstat fs p = Ok i -> is_symlink i = true -> Readlink fs p = Ok t ->
  Stat fs (resolve p t) = Fail e ->
  chain_has_PathError e = true -> IsNotExist (Some e) = true ->
  sends fs st = [sendEvent {| Name := p; op := Remove |}] /\
  events_for p (tick fs tracked).2 = [{| Name := p; op := Remove |}] /\
  (tick fs tracked).1 !! p =
    Some {| path := p; info := Some i; target := resolve p t; targetInfo := None |}.
Proof.
  intros Hr Hp Hold HL HS HR HT HPE HN. apply reachable_keyed in Hr.
  assert (path st = p) as Hpath by (by apply (Hr p st)). subst p.
  rewrite (tick_events_for fs tracked (path st) st) by done.
  rewrite (tick_lookup fs tracked (path st) st) by done.
  unfold sends, next_state.
  rewrite (tick_entry_target_stat_error fs st i t e) by done.
  simpl. by rewrite HPE, Hold.
Qed.

(** X15. A tracked symlink whose target has not been present and is
    reported as not found stays silent; the entry records the symlink's
    [info] and the resolved target path, with a nil [targetInfo]. *)
Theorem dangling_symlink_is_silent fs tracked p st i t e :
  reachable tracked -> tracked !! p = Some st ->
  targetInfo st = None ->
  Lstat fs p = Ok i -> is_symlink i = true -> Readlink fs p = Ok t ->
  Stat fs (resolve p t) = Fail e ->
  chain_has_PathError e = true -> IsNotExist (Some e) = true ->
  sends fs st = [] /\
  (tick fs tracked).1 !! p =
    Some {| path := p; info := Some i; target := resolve p t; targetInfo := None |}.
Proof.
  intros Hr Hp Hold HL HS HR HT HPE HN. apply reachable_keyed in Hr.
  assert (path st = p) as Hpath by (by apply (Hr p st)). subst p.
  rewrite (tick_lookup fs tracked (path st) st) by done.
  unfold sends, next_state.
  rewrite (tick_entry_target_stat_error fs st i t e) by done.
  simpl. by rewrite HPE, Hold.
Qed.

(** X16. A path that is removed and then created again as a file is
    reported as a fresh creation, not as a write on the old state: the
    cycle after the removal sends Create, with Write when the new file has
    data. *)
Theorem recreated_file_is_created_again fs1 fs2 tracked p st oldInfo e i :
  reachable tracked -> tracked !! p = Some st ->
  info st = Some oldInfo ->
  Lstat fs1 p = Fail e -> IsNotExist (Some e) = true ->
  seen_as_file fs2 p i ->
  events_for p (tick fs1 tracked).2 = [{| Name := p; op := Remove |}] /\
  events_for p (tick fs2 (tick fs1 tracked).1).2 =
    [{| Name := p; op := if Z.ltb 0 (Size i) then Z.lor Create Write else Create |}].
Proof.
  intros Hr Hp Hi HL HN [HL2 HS2]. apply reachable_keyed in Hr.
  assert (path st = p) as Hpath by (by apply (Hr p st)). subst p.
  assert (tick_entry fs1 st =
          (Some (empty_state (path st)),
           [sendEvent {| Name := path st; op := Remove |}])) as Hte.
  { rewrite (tick_entry_not_exist fs1 st e) by done. by rewrite Hi. }
  split.
  - rewrite (tick_events_for fs1 tracked (path st) st) by done.
    unfold sends. by rewrite Hte.
  - rewrite (tick_events_for fs2 _ (path st) (empty_state (path st))).
    + unfold sends. by rewrite (tick_entry_not_symlink fs2 _ i).
    + by apply tick_keyed.
    + rewrite (tick_lookup fs1 tracked (path st) st) by done.
      unfold next_state. by rewrite Hte.
Qed.

(** X17. What a cycle does for a tracked path depends only on the outcomes
    of the calls made for that path: two file systems that agree on them
    give the path the same entry and the same events, whatever happens to
    the other paths (errors included). *)
Theorem path_result_depends_on_its_own_outcomes fs1 fs2 tracked p :
  reachable tracked -> same_outcomes fs1 fs2 p ->
  (tick fs1 tracked).1 !! p = (tick fs2 tracked).1 !! p /\
  events_for p (tick fs1 tracked).2 = events_for p (tick fs2 tracked).2.
Proof.
  intros Hr Hsame. apply reachable_keyed in Hr.
  destruct (tracked !! p) as [st|] eqn:Hp.
  - assert (path st = p) as Hpath by (by apply (Hr p st)).
    assert (tick_entry fs2 st = tick_entry fs1 st) as Hte.
    { apply tick_entry_same_outcomes. by rewrite Hpath. }
    rewrite !(tick_lookup _ tracked p st), !(tick_events_for _ tracked p st) by done.
    unfold next_state, sends. by rewrite Hte.
  - rewrite !tick_tracked, !lookup_fmap, Hp by done. split; [done|].
    unfold tick. rewrite !tick_order_events_for by done. by rewrite Hp.
Qed.

(** X18. The order in which a cycle visits the entries does not matter:
    any order gives the same registry, the same events for each path, and
    the same sends up to reordering. *)
Theorem iteration_order_is_irrelevant fs (ks : list string) tracked :
  reachable tracked -> ks ≡ₚ keys tracked ->
  (tick_order fs ks tracked).1 = (tick fs tracked).1 /\
  (forall p, events_for p (tick_order fs ks tracked).2 = events_for p (tick fs tracked).2) /\
  (tick_order fs ks tracked).2 ≡ₚ (tick fs tracked).2.
Proof.
  intros Hr Hperm. apply reachable_keyed in Hr.
  split; [|split].
  - unfold tick. by rewrite !tick_order_tracked.
  - intros p. unfold tick. by rewrite !tick_order_events_for.
  - unfold tick. rewrite !tick_order_sends by done.
    by apply Permutation_flat_map.
Qed.

Lemma events_of_nil_iff (sent : list msg) :
  events_of sent = [] <-> forall e, sendEvent e ∉ sent.
Proof.
  unfold events_of. split.
  - intros Hnil e He.
    assert (e ∈ omap (fun m => match m with sendEvent e => Some e | sendError _ => None end) sent) as Hin.
    { apply list_elem_of_omap. by exists (sendEvent e). }
    rewrite Hnil in Hin. by apply elem_of_nil in Hin.
  - intros Hno. induction sent as [|m sent IH]; [done|].
    destruct m as [e|e]; simpl.
    + exfalso. apply (Hno e). by left.
    + apply IH. intros e' He'. apply (Hno e'). by right.
Qed.

Lemma events_of_app (a b : list msg) : events_of (a ++ b) = events_of a ++ events_of b.
Proof. unfold events_of. apply omap_app. Qed.

Lemma tick_settled fs tracked :
  keyed_by_path tracked ->
  (tick fs (tick fs tracked).1).1 = (tick fs tracked).1 /\
  events_of (tick fs (tick fs tracked).1).2 = [].
Proof.
  intros Hk. pose proof (tick_keyed fs tracked Hk) as Hk1. split.
  - rewrite (tick_tracked fs (tick fs tracked).1) by done.
    rewrite tick_tracked by done. apply map_eq. intros k.
    rewrite !lookup_fmap. destruct (tracked !! k) as [st|]; [|done].
    simpl. f_equal. apply entry_idempotent.
  - apply events_of_nil_iff. intros e He.
    apply tick_sends_inv in He as (k & st1 & Hst1 & He); [|done].
    rewrite tick_tracked, lookup_fmap in Hst1 by done.
    destruct (tracked !! k) as [st|]; [|done]. simpl in Hst1. simplify_eq.
    destruct (entry_idempotent fs st) as [_ Hev].
    apply (proj1 (events_of_nil_iff _) Hev e He).
Qed.

(** X19. Once a snapshot of the file system has been polled, polling the
    same snapshot again, any number of times, sends no event for any path
    and leaves the whole registry as it is. *)
Theorem repeated_polls_of_same_snapshot_are_quiet fs tracked (n : nat) :
  reachable tracked ->
  (run (replicate n fs) (tick fs tracked).1).1 = (tick fs tracked).1 /\
  events_of (run (replicate n fs) (tick fs tracked).1).2 = [].
Proof.
  intros Hr. apply reachable_keyed in Hr.
  destruct (tick_settled fs tracked Hr) as [Hst Hev].
  induction n as [|n [IH1 IH2]]; [done|].
  cbn [replicate run fst snd]. rewrite Hst. split; [done|].
  by rewrite events_of_app, Hev, IH2.
Qed.

Lemma entry_at_most_one_send fs st : (length (sends fs st) <= 1)%nat.
Proof.
  unfold sends.
  destruct (Lstat fs (path st)) as [i|e] eqn:HL.
  - destruct (is_symlink i) eqn:HS.
    + destruct (Readlink fs (path st)) as [t|e] eqn:HR.
      * destruct (Stat fs (resolve (path st) t)) as [ti|e] eqn:HT.
        -- rewrite (tick_entry_target_present fs st i t ti) by done. simpl.
           destruct (targetInfo st); [|simpl; lia].
           destruct (negb (String.eqb (target st) _) || _ || _); simpl; lia.
        -- rewrite (tick_entry_target_stat_error fs st i t e) by done. simpl.
           destruct (chain_has_PathError e), (targetInfo st); simpl; lia.
      * rewrite (tick_entry_readlink_error fs st i e) by done. simpl. lia.
    + rewrite (tick_entry_not_symlink fs st i) by done. simpl.
      destruct (info st); [|simpl; lia].
      destruct (negb (Time_eqb (ModTime i) _) || _); simpl; lia.
  - destruct (IsNotExist (Some e)) eqn:HN.
    + rewrite (tick_entry_not_exist fs st e) by done.
      destruct (info st); simpl; lia.
    + rewrite (tick_entry_lstat_error fs st e) by done. simpl. lia.
Qed.

(** X20. A poll cycle attempts at most one send, event or error, per
    tracked path: the sends of a cycle number at most the tracked paths. *)
Theorem sends_per_cycle_bounded_by_tracked_paths fs tracked :
  reachable tracked ->
  (length (tick fs tracked).2 <= size tracked)%nat.
Proof.
  intros Hr. apply reachable_keyed in Hr.
  unfold tick. rewrite tick_order_sends by done.
  assert (size tracked = length (keys tracked)) as ->.
  { unfold keys. by rewrite length_fmap, length_map_to_list. }
  induction (keys tracked) as [|k ks IH]; simpl; [lia|].
  rewrite length_app.
  assert (length (from_option (sends fs) [] (tracked !! k)) <= 1)%nat.
  { destruct (tracked !! k) as [st|]; simpl; [apply entry_at_most_one_send|lia]. }
  lia.
Qed.

Lemma entry_unchanged_no_event fs st :
  next_state fs st = st -> events_of (sends fs st) = [].
Proof.
  unfold next_state, sends.
  destruct (Lstat fs (path st)) as [i|e] eqn:HL.
  - destruct (is_symlink i) eqn:HS.
    + destruct (Readlink fs (path st)) as [t|e] eqn:HR.
      * destruct (Stat fs (resolve (path st) t)) as [ti|e] eqn:HT.
        -- rewrite (tick_entry_target_present fs st i t ti) by done. simpl.
           intros Heq. rewrite <- Heq. simpl.
           by rewrite String.eqb_refl, Z.eqb_refl, Time_eqb_refl.
        -- rewrite (tick_entry_target_stat_error fs st i t e) by done. simpl.
           intros Heq. rewrite <- Heq. simpl.
           by destruct (chain_has_PathError e).
      * by rewrite (tick_entry_readlink_error fs st i e).
    + rewrite (tick_entry_not_symlink fs st i) by done. simpl.
      intros Heq. rewrite <- Heq. simpl.
      by rewrite Z.eqb_refl, Time_eqb_refl.
  - destruct (IsNotExist (Some e)) eqn:HN.
    + rewrite (tick_entry_not_exist fs st e) by done.
      destruct (info st) eqn:Hi; [|done]. simpl.
      intros Heq. rewrite <- Heq in Hi. done.
    + by rewrite (tick_entry_lstat_error fs st e).
Qed.

(** X21. No event without a change of the stored observation: when a
    cycle leaves the entry of a tracked path exactly as it was, it has
    sent no event for that path. *)
Theorem unchanged_entry_means_no_event fs tracked p st :
  reachable tracked -> tracked !! p = Some st ->
  (tick fs tracked).1 !! p = Some st ->
  events_for p (tick fs tracked).2 = [].
Proof.
  intros Hr Hp Hsame. apply reachable_keyed in Hr.
  rewrite (tick_lookup fs tracked p st) in Hsame by done.
  rewrite (tick_events_for fs tracked p st) by done.
  apply entry_unchanged_no_event. by simplify_eq.
Qed.

End Cycles.

(** * The events of one path, within a cycle and across cycles *)

Section Events.
Context {fp : Filepath}.
Implicit Types (fs : FS) (st : state) (tracked : gmap string state).

Lemma events_of_sends_elem fs st e :
  e ∈ events_of (sends fs st) -> sendEvent e ∈ sends fs st.
Proof.
  unfold events_of. intros (m & Hm & Hsome)%list_elem_of_omap.
  destruct m; by simplify_eq.
Qed.

(** C3. In one poll cycle at most one event is sent for a tracked path.
    That event carries the path as its name and one of the masks Create,
    Create|Write, Write, Remove. When a creation coincides with data (the
    path is seen for the first time and the observed size is greater than
    zero) the two causes are the two bits of the one event, Create|Write,
    not two events. *)
Theorem one_event_per_path_with_combined_bits fs tracked p :
  reachable tracked ->
  (length (events_for p (tick fs tracked).2) <= 1)%nat /\
  (forall e, e ∈ events_for p (tick fs tracked).2 ->
     Name e = p /\
     (op e = Create \/ op e = Z.lor Create Write \/ op e = Write \/ op e = Remove)) /\
  (forall st size,
     tracked !! p = Some st ->
     (info st = None /\ exists i, seen_as_file fs p i /\ Size i = size) \/
     (targetInfo st = None /\ exists t ti, seen_as_link_to fs p t ti /\ Size ti = size) ->
     0 < size ->
     events_for p (tick fs tracked).2 = [{| Name := p; op := Z.lor Create Write |}]).
Proof.
  intros Hr. apply reachable_keyed in Hr.
  destruct (tracked !! p) as [st|] eqn:Hp.
  - assert (path st = p) as Hpath by (by apply (Hr p st)). subst p.
    rewrite (tick_events_for fs tracked (path st) st) by done.
    split; [apply entry_at_most_one_event|]. split.
    + intros e He. apply events_of_sends_elem in He. split.
      * by apply sends_Name in He.
      * by apply entry_ops in He.
    + intros st' size [= <-] Hcase Hpos.
      assert (created_op size = Z.lor Create Write) as Hop.
      { unfold created_op. by rewrite (proj2 (Z.ltb_lt 0 size) Hpos). }
      rewrite <- Hop. unfold sends.
      destruct Hcase as [(Hnil & i & (HL & HS) & <-)|(Hnil & t & ti & (i & HL & HS & HR & HT) & <-)].
      * rewrite (tick_entry_not_symlink fs st i) by done. simpl. by rewrite Hnil.
      * rewrite (tick_entry_target_present fs st i t ti) by done. simpl. by rewrite Hnil.
  - unfold tick. rewrite tick_order_events_for by done. rewrite Hp. simpl.
    split; [lia|]. split; [by intros e ?%elem_of_nil|]. by intros.
Qed.

Lemma created_op_not_Remove (size : Z) : created_op size <> Remove.
Proof.
  intros Heq. destruct (created_op_bits size) as (_ & _ & HR).
  rewrite Heq in HR. discriminate HR.
Qed.

(** A Remove is sent for one of two reasons, and either one leaves the
    entry without [targetInfo]. *)
Lemma entry_Remove_cases fs st :
  op <$> events_of (sends fs st) = [Remove] ->
  (lstat_not_found fs (path st) = true /\ is_Some (info st) /\
   info (next_state fs st) = None /\ targetInfo (next_state fs st) = None) \/
  (target_stat_fails fs (path st) = true /\ is_Some (targetInfo st) /\
   targetInfo (next_state fs st) = None).
Proof.
  unfold sends, next_state, lstat_not_found, target_stat_fails.
  destruct (Lstat fs (path st)) as [i|e] eqn:HL.
  - destruct (is_symlink i) eqn:HS.
    + destruct (Readlink fs (path st)) as [t|e] eqn:HR.
      * destruct (Stat fs (resolve (path st) t)) as [ti|e] eqn:HT.
        -- rewrite (tick_entry_target_present fs st i t ti) by done. simpl.
           destruct (targetInfo st).
           ++ destruct (negb (String.eqb (target st) _) || _ || _); simpl; intros [=].
           ++ simpl. intros [= Heq]. by apply created_op_not_Remove in Heq.
        -- rewrite (tick_entry_target_stat_error fs st i t e) by done. simpl.
           destruct (chain_has_PathError e), (targetInfo st) eqn:Hti; simpl;
             intros Heq; try discriminate Heq.
           right. by repeat split.
      * rewrite (tick_entry_readlink_error fs st i e) by done. simpl. intros [=].
    + rewrite (tick_entry_not_symlink fs st i) by done. simpl.
      destruct (info st).
      * destruct (negb (Time_eqb (ModTime i) _) || _); simpl; intros [=].
      * simpl. intros [= Heq]. by apply created_op_not_Remove in Heq.
  - destruct (IsNotExist (Some e)) eqn:HN.
    + rewrite (tick_entry_not_exist fs st e) by done.
      destruct (info st) eqn:Hi; simpl; intros Heq; [|discriminate Heq].
      left. by repeat split.
    + rewrite (tick_entry_lstat_error fs st e) by done. simpl. intros [=].
Qed.

Lemma created_op_has_Create (size : Z) (rest : list Op) :
  ~ Forall (fun o => Has o Create = false) (created_op size :: rest).
Proof.
  intros [Hc _]%Forall_cons. destruct (created_op_bits size) as (HC & _).
  congruence.
Qed.

(** Only a Create gives an entry a [targetInfo]. *)
Lemma entry_no_Create_keeps_no_target fs st :
  targetInfo st = None ->
  Forall (fun o => Has o Create = false) (op <$> events_of (sends fs st)) ->
  targetInfo (next_state fs st) = None.
Proof.
  intros Hnil. unfold sends, next_state.
  destruct (Lstat fs (path st)) as [i|e] eqn:HL.
  - destruct (is_symlink i) eqn:HS.
    + destruct (Readlink fs (path st)) as [t|e] eqn:HR.
      * destruct (Stat fs (resolve (path st) t)) as [ti|e] eqn:HT.
        -- rewrite (tick_entry_target_present fs st i t ti) by done. simpl.
           rewrite Hnil. simpl. intros H. by apply created_op_has_Create in H.
        -- by rewrite (tick_entry_target_stat_error fs st i t e).
      * by rewrite (tick_entry_readlink_error fs st i e).
    + by rewrite (tick_entry_not_symlink fs st i).
  - destruct (IsNotExist (Some e)) eqn:HN.
    + rewrite (tick_entry_not_exist fs st e) by done. by destruct (info st).
    + by rewrite (tick_entry_lstat_error fs st e).
Qed.

(** Without a Create, an entry gets an [info] only from a symlink whose
    target cannot be stat'ed. *)
Lemma entry_no_Create_keeps_no_info fs st :
  info st = None -> targetInfo st = None ->
  Forall (fun o => Has o Create = false) (op <$> events_of (sends fs st)) ->
  target_stat_fails fs (path st) = false ->
  info (next_state fs st) = None.
Proof.
  intros Hi Hnil. unfold sends, next_state, target_stat_fails.
  destruct (Lstat fs (path st)) as [i|e] eqn:HL.
  - destruct (is_symlink i) eqn:HS.
    + destruct (Readlink fs (path st)) as [t|e] eqn:HR.
      * destruct (Stat fs (resolve (path st) t)) as [ti|e] eqn:HT.
        -- rewrite (tick_entry_target_present fs st i t ti) by done. simpl.
           rewrite Hnil. simpl. intros H. by apply created_op_has_Create in H.
        -- done.
      * by rewrite (tick_entry_readlink_error fs st i e).
    + rewrite (tick_entry_not_symlink fs st i) by done. simpl.
      rewrite Hi. simpl. intros H. by apply created_op_has_Create in H.
  - destruct (IsNotExist (Some e)) eqn:HN.
    + rewrite (tick_entry_not_exist fs st e) by done. by rewrite Hi.
    + by rewrite (tick_entry_lstat_error fs st e).
Qed.

Lemma run_no_Create (mid : list FS) p : forall tracked st,
  keyed_by_path tracked -> tracked !! p = Some st ->
  targetInfo st = None ->
  Forall (fun o => Has o Create = false) (ops_for p (run mid tracked).2) ->
  exists st',
    (run mid tracked).1 !! p = Some st' /\
    targetInfo st' = None /\
    (info st = None ->
     Forall (fun fs => target_stat_fails fs p = false) mid ->
     info st' = None).
Proof.
  induction mid as [|fs mid IH]; intros tracked st Hk Hp Hnil Hops.
  - exists st. by repeat split.
  - simpl in Hops. rewrite ops_for_app in Hops. apply Forall_app in Hops as [Hops1 Hops2].
    assert (path st = p) as Hpath by (by apply (Hk p st)).
    unfold ops_for in Hops1. rewrite (tick_events_for fs tracked p st) in Hops1 by done.
    pose proof (entry_no_Create_keeps_no_target fs st Hnil Hops1) as Hnil1.
    destruct (IH (tick fs tracked).1 (next_state fs st)) as (st' & Hst' & Hnil' & Hinfo');
      [by apply tick_keyed|by apply tick_lookup|done|done|].
    exists st'. split; [done|]. split; [done|].
    intros Hi [Hfs Hmid]%Forall_cons. apply Hinfo'; [|done].
    apply entry_no_Create_keeps_no_info; [done..|]. by rewrite Hpath.
Qed.

(** C2, as the code has it. Two Removes for a tracked path with no Create
    between them occur in one situation only: the second Remove reports
    that the path itself is no longer found, and in the cycle of the first
    Remove or in a cycle between the two the path was found to be a
    symlink whose resolved target could not be stat'ed. In every other
    case a Remove is followed by a Create before the next Remove. *)
Theorem second_Remove_only_for_lost_dangling_symlink fs1 (mid : list FS) fs2 tracked p :
  reachable tracked ->
  ops_for p (tick fs1 tracked).2 = [Remove] ->
  Forall (fun o => Has o Create = false) (ops_for p (run mid (tick fs1 tracked).1).2) ->
  ops_for p (tick fs2 (run mid (tick fs1 tracked).1).1).2 = [Remove] ->
  lstat_not_found fs2 p = true /\
  Exists (fun fs => target_stat_fails fs p = true) (fs1 :: mid).
Proof.
  intros Hr H1 Hmid H2. apply reachable_keyed in Hr.
  destruct (tracked !! p) as [st|] eqn:Hp.
  2:{ unfold ops_for, tick in H1. rewrite tick_order_events_for in H1 by done.
      by rewrite Hp in H1. }
  assert (path st = p) as Hpath by (by apply (Hr p st)).
  unfold ops_for in H1. rewrite (tick_events_for fs1 tracked p st) in H1 by done.
  pose proof (tick_keyed fs1 tracked Hr) as Hk1.
  pose proof (tick_lookup fs1 tracked p st Hr Hp) as Hp1.
  assert (targetInfo (next_state fs1 st) = None) as Hnil1.
  { by destruct (entry_Remove_cases fs1 st H1) as [(_ & _ & _ & ?)|(_ & _ & ?)]. }
  destruct (run_no_Create mid p _ _ Hk1 Hp1 Hnil1 Hmid) as (st' & Hst' & Hnil' & Hinfo').
  assert (path st' = p) as Hpath'.
  { by apply (run_keyed mid _ Hk1 p st'). }
  unfold ops_for in H2.
  rewrite (tick_events_for fs2 _ p st' (run_keyed mid _ Hk1) Hst') in H2.
  destruct (entry_Remove_cases fs2 st' H2) as [(Hnf & Hsome & _)|(_ & Hsome & _)].
  2:{ rewrite Hnil' in Hsome. by destruct Hsome. }
  rewrite Hpath' in Hnf. split; [done|].
  destruct (decide (Exists (fun fs => target_stat_fails fs p = true) (fs1 :: mid)))
    as [Hex|Hnex]; [done|exfalso].
  apply not_Exists_Forall in Hnex; [|intros fs; apply _].
  apply Forall_cons in Hnex as [Hfs1 Hmidf]. simpl in Hfs1.
  apply not_true_is_false in Hfs1.
  assert (info (next_state fs1 st) = None) as Hi1.
  { destruct (entry_Remove_cases fs1 st H1) as [(_ & _ & ? & _)|(Hd & _)]; [done|].
    rewrite Hpath in Hd. congruence. }
  rewrite Hinfo' in Hsome; [by destruct Hsome|done|].
  eapply Forall_impl; [exact Hmidf|]. intros fs Hfs. simpl in Hfs.
  by apply not_true_is_false.
Qed.

End Events.

(** * Worked scenarios, on Unix paths *)

#[local] Existing Instance unix_filepath.

Example Clean_cases :
  [Clean "a//b"; Clean "a/./b"; Clean "a/b/.."; Clean "/../a"; Clean "../a";
   Clean "a/../../b"; Clean ""; Clean "/"; Clean "abc/"] =
  ["a/b"; "a/b"; "a"; "/a"; "../a"; "../b"; "."; "/"; "abc"].
Proof. reflexivity. Qed.

Example relative_link_resolves_against_its_directory :
  resolve "/etc/certs/current" "..data" = "/etc/certs/..data".
Proof. reflexivity. Qed.

(** Every failure [os.Stat] reports is a [*PathError], so the first test
    of the target's stat result is true for each of them, and a stored
    target turns it into a Remove. *)
Lemma stat_PathError_sent_as_Remove {fp : Filepath} fs st i t call name e oldTi :
  Lstat fs (path st) = Ok i -> is_symlink i = true ->
  Readlink fs (path st) = Ok t ->
  Stat fs (resolve (path st) t) = Fail (PathError call name e) ->
  targetInfo st = Some oldTi ->
  sends fs st = [sendEvent {| Name := path st; op := Remove |}].
Proof.
  intros HL HS HR HT Hold. unfold sends.
  rewrite (tick_entry_target_stat_error fs st i t (PathError call name e)) by done.
  simpl. by rewrite Hold.
Qed.

(** An error with no [*PathError] in its chain does reach the Errors
    channel, and no event goes with it. *)
Lemma stat_error_without_PathError_surfaced {fp : Filepath} fs st i t e :
  Lstat fs (path st) = Ok i -> is_symlink i = true ->
  Readlink fs (path st) = Ok t ->
  Stat fs (resolve (path st) t) = Fail e ->
  chain_has_PathError e = false ->
  sends fs st = [sendError e].
Proof.
  intros HL HS HR HT Hno. unfold sends.
  rewrite (tick_entry_target_stat_error fs st i t e) by done.
  simpl. by rewrite Hno.
Qed.

(** C1, the code at the failing input. The tracked symlink [/s] points to
    [/a], which the first cycle finds. In the second cycle the stat of
    [/a] fails with [EACCES], which is not a not-found error; the cycle
    sends a Remove event for [/s] and nothing on the Errors channel. *)
Theorem target_stat_EACCES_is_sent_as_Remove :
  Stat fs_target_denied "/a" = Fail (eacces "stat" "/a") /\
  IsNotExist (Some (eacces "stat" "/a")) = false /\
  (tick fs_link_a (New ["/s"])).1 !! "/s" = Some st_link_a /\
  (tick fs_target_denied (tick fs_link_a (New ["/s"])).1).2 =
    [sendEvent {| Name := "/s"; op := Remove |}].
Proof. vm_compute. done. Qed.

(** C2 fails as stated: the target of the tracked symlink is removed
    (Remove), then the symlink itself (Remove again), with no Create in
    between. *)
Lemma Remove_twice_target_then_link :
  ops_for "/s" (run [fs_link_a; fs_dangling; fs_absent] (New ["/s"])).2 =
    [Z.lor Create Write; Remove; Remove] /\
  Remove_twice_in_a_row
    (ops_for "/s" (run [fs_link_a; fs_dangling; fs_absent] (New ["/s"])).2).
Proof.
  split; [by vm_compute|].
  exists [Z.lor Create Write], Remove, [], Remove, [].
  split; [by vm_compute|]. done.
Qed.

Lemma no_Remove_twice_witness :
  ~ Remove_twice_in_a_row
      (ops_for "/s" (run [fs_file; fs_absent; fs_link_a; fs_absent] (New ["/s"])).2).
Proof.
  apply no_Remove_twice_without_dangling_symlink.
  repeat (constructor; [reflexivity|]). constructor.
Defined.


Lemma lstat_error_witness :
  sends fs_denied st_file = [sendError (eacces "lstat" "/s")] /\
  sendError (eacces "lstat" "/s") ∈ (tick fs_denied (tick fs_file (New ["/s"])).1).2 /\
  events_for "/s" (tick fs_denied (tick fs_file (New ["/s"])).1).2 = [] /\
  (tick fs_denied (tick fs_file (New ["/s"])).1).1 !! "/s" = Some st_file.
Proof.
  apply (lstat_error_is_surfaced_and_state_kept
           fs_denied (tick fs_file (New ["/s"])).1 "/s" st_file (eacces "lstat" "/s")).
  - apply reachable_tick_default, reachable_New.
  - vm_compute. reflexivity.
  - reflexivity.
  - reflexivity.
Defined.

Lemma create_when_first_seen_witness :
  exists o,
    events_for "/s" (tick fs_file (New ["/s"])).2 = [{| Name := "/s"; op := o |}] /\
    o = (if Z.ltb 0 5 then Z.lor Create Write else Create) /\
    Has o Create = true /\ (Has o Write = true <-> 0 < 5) /\ Has o Remove = false.
Proof.
  apply (create_when_first_seen fs_file (New ["/s"]) "/s" (empty_state "/s") 5).
  - apply reachable_New.
  - vm_compute. reflexivity.
  - left. split; [reflexivity|]. exists (regular 5 100). vm_compute. done.
Defined.

Lemma readlink_failure_witness :
  sends fs_link_vanishes st_link_a = [] /\
  events_for "/s" (tick fs_link_vanishes (tick fs_link_a (New ["/s"])).1).2 = [] /\
  (tick fs_link_vanishes (tick fs_link_a (New ["/s"])).1).1 !! "/s" = Some st_link_a.
Proof.
  apply (readlink_failure_is_skipped
           fs_link_vanishes (tick fs_link_a (New ["/s"])).1 "/s" st_link_a
           link_info (enoent "readlink" "/s")).
  - apply reachable_tick_default, reachable_New.
  - vm_compute. reflexivity.
  - reflexivity.
  - reflexivity.
  - reflexivity.
Defined.

Lemma reachable_invariants_witness :
  (info st_link_a = None -> target st_link_a = "" /\ targetInfo st_link_a = None) /\
  (forall ti, targetInfo st_link_a = Some ti ->
     exists i, info st_link_a = Some i /\ is_symlink i = true).
Proof.
  apply (reachable_entries_satisfy_invariants (tick fs_link_a (New ["/s"])).1 "/s" st_link_a).
  - apply reachable_tick_default, reachable_New.
  - vm_compute. reflexivity.
Defined.

Lemma unchanged_outcomes_witness :
  (tick fs_link_a (tick fs_link_a (New ["/s"])).1).1 !! "/s" =
    (tick fs_link_a (New ["/s"])).1 !! "/s" /\
  events_for "/s" (tick fs_link_a (tick fs_link_a (New ["/s"])).1).2 = [].
Proof.
  apply (unchanged_outcomes_change_nothing fs_link_a fs_link_a (New ["/s"]) "/s").
  - apply reachable_New.
  - split; [reflexivity|]. split; [reflexivity|]. intros t _. reflexivity.
Defined.

Lemma file_turned_symlink_witness :
  exists o,
    events_for "/s" (tick fs_link_a (tick fs_file (New ["/s"])).1).2 =
      [{| Name := "/s"; op := o |}] /\
    o = (if Z.ltb 0 (Size (regular 5 100)) then Z.lor Create Write else Create) /\
    Has o Create = true /\
    (Has o Write = true <-> 0 < Size (regular 5 100)) /\
    Has o Remove = false.
Proof.
  apply (file_turned_symlink_is_created
           fs_link_a (tick fs_file (New ["/s"])).1 "/s" st_file
           (regular 5 100) "/a" (regular 5 100)).
  - apply reachable_tick_default, reachable_New.
  - vm_compute. reflexivity.
  - reflexivity.
  - reflexivity.
  - reflexivity.
  - exists link_info. vm_compute. done.
Defined.

Lemma New_same_paths_witness : New ["/a"; "/s"; "/a"] = New ["/s"; "/a"].
Proof.
  apply New_same_paths_same_registry.
  intros x. rewrite !elem_of_cons, !elem_of_nil. tauto.
Defined.

Lemma event_names_witness : "/s" ∈ ["/s"; "/other"].
Proof.
  apply (event_names_are_tracked_files ["/s"; "/other"] [fs_link_a; fs_dangling]
           {| Name := "/s"; op := Remove |}).
  vm_compute. right. left.
Defined.

Lemma event_ops_witness :
  Remove = Create \/ Remove = Z.lor Create Write \/ Remove = Write \/ Remove = Remove.
Proof.
  apply (event_ops_are_one_of_four ["/s"; "/other"] [fs_link_a; fs_dangling]
           {| Name := "/s"; op := Remove |}).
  vm_compute. right. left.
Defined.

Lemma keep_their_path_witness : path st_link_a = "/s".
Proof.
  apply (reachable_entries_keep_their_path (tick fs_link_a (New ["/s"])).1 "/s" st_link_a).
  - apply reachable_tick_default, reachable_New.
  - vm_compute. reflexivity.
Defined.

Lemma removed_path_witness :
  sends fs_absent st_file = [sendEvent {| Name := "/s"; op := Remove |}] /\
  events_for "/s" (tick fs_absent (tick fs_file (New ["/s"])).1).2 =
    [{| Name := "/s"; op := Remove |}] /\
  (tick fs_absent (tick fs_file (New ["/s"])).1).1 !! "/s" = Some (empty_state "/s").
Proof.
  apply (removed_path_is_reported_and_forgotten
           fs_absent (tick fs_file (New ["/s"])).1 "/s" st_file (regular 5 100)
           (enoent "lstat" "/s")).
  - apply reachable_tick_default, reachable_New.
  - vm_compute. reflexivity.
  - reflexivity.
  - reflexivity.
  - reflexivity.
Defined.

Lemma unseen_absent_witness :
  sends fs_absent (empty_state "/s") = [] /\
  (tick fs_absent (New ["/s"])).1 !! "/s" = Some (empty_state "/s").
Proof.
  apply (unseen_absent_path_is_silent
           fs_absent (New ["/s"]) "/s" (empty_state "/s") (enoent "lstat" "/s")).
  - apply reachable_New.
  - vm_compute. reflexivity.
  - reflexivity.
  - reflexivity.
  - reflexivity.
Defined.

Lemma file_write_witness :
  (events_for "/s" (tick (fs_of [("/s", File (regular 9 200))])
                         (tick fs_file (New ["/s"])).1).2 =
     [{| Name := "/s"; op := Write |}] <->
   ModTime (regular 9 200) <> ModTime (regular 5 100) \/
   Size (regular 9 200) <> Size (regular 5 100)) /\
  (events_for "/s" (tick (fs_of [("/s", File (regular 9 200))])
                         (tick fs_file (New ["/s"])).1).2 = [] <->
   ~ (ModTime (regular 9 200) <> ModTime (regular 5 100) \/
      Size (regular 9 200) <> Size (regular 5 100))) /\
  (tick (fs_of [("/s", File (regular 9 200))]) (tick fs_file (New ["/s"])).1).1 !! "/s" =
    Some {| path := "/s"; info := Some (regular 9 200); target := ""; targetInfo := None |}.
Proof.
  apply (file_write_iff_changed
           (fs_of [("/s", File (regular 9 200))]) (tick fs_file (New ["/s"])).1
           "/s" st_file (regular 5 100) (regular 9 200)).
  - apply reachable_tick_default, reachable_New.
  - vm_compute. reflexivity.
  - reflexivity.
  - split; reflexivity.
Defined.

Lemma vanished_target_witness :
  sends fs_dangling st_link_a = [sendEvent {| Name := "/s"; op := Remove |}] /\
  events_for "/s" (tick fs_dangling (tick fs_link_a (New ["/s"])).1).2 =
    [{| Name := "/s"; op := Remove |}] /\
  (tick fs_dangling (tick fs_link_a (New ["/s"])).1).1 !! "/s" =
    Some {| path := "/s"; info := Some link_info; target := resolve "/s" "/a";
            targetInfo := None |}.
Proof.
  apply (vanished_target_is_reported
           fs_dangling (tick fs_link_a (New ["/s"])).1 "/s" st_link_a
           (regular 5 100) link_info "/a" (enoent "stat" "/a")).
  - apply reachable_tick_default, reachable_New.
  - vm_compute. reflexivity.
  - reflexivity.
  - reflexivity.
  - reflexivity.
  - reflexivity.
  - reflexivity.
  - reflexivity.
  - reflexivity.
Defined.

Lemma dangling_symlink_witness :
  sends fs_dangling (empty_state "/s") = [] /\
  (tick fs_dangling (New ["/s"])).1 !! "/s" =
    Some {| path := "/s"; info := Some link_info; target := resolve "/s" "/a";
            targetInfo := None |}.
Proof.
  apply (dangling_symlink_is_silent
           fs_dangling (New ["/s"]) "/s" (empty_state "/s")
           link_info "/a" (enoent "stat" "/a")).
  - apply reachable_New.
  - vm_compute. reflexivity.
  - reflexivity.
  - reflexivity.
  - reflexivity.
  - reflexivity.
  - reflexivity.
  - reflexivity.
  - reflexivity.
Defined.

Lemma recreated_file_witness :
  events_for "/s" (tick fs_absent (tick fs_file (New ["/s"])).1).2 =
    [{| Name := "/s"; op := Remove |}] /\
  events_for "/s" (tick fs_file (tick fs_absent (tick fs_file (New ["/s"])).1).1).2 =
    [{| Name := "/s";
        op := if Z.ltb 0 (Size (regular 5 100)) then Z.lor Create Write else Create |}].
Proof.
  apply (recreated_file_is_created_again
           fs_absent fs_file (tick fs_file (New ["/s"])).1 "/s" st_file
           (regular 5 100) (enoent "lstat" "/s") (regular 5 100)).
  - apply reachable_tick_default, reachable_New.
  - vm_compute. reflexivity.
  - reflexivity.
  - reflexivity.
  - reflexivity.
  - split; reflexivity.
Defined.

Lemma own_outcomes_witness :
  (tick fs_link_a (New ["/s"; "/other"])).1 !! "/s" =
    (tick (fs_of [("/s", Link "/a"); ("/a", File (regular 5 100)); ("/other", NoAccess)])
          (New ["/s"; "/other"])).1 !! "/s" /\
  events_for "/s" (tick fs_link_a (New ["/s"; "/other"])).2 =
    events_for "/s"
      (tick (fs_of [("/s", Link "/a"); ("/a", File (regular 5 100)); ("/other", NoAccess)])
            (New ["/s"; "/other"])).2.
Proof.
  apply (path_result_depends_on_its_own_outcomes
           fs_link_a
           (fs_of [("/s", Link "/a"); ("/a", File (regular 5 100)); ("/other", NoAccess)])
           (New ["/s"; "/other"]) "/s").
  - apply reachable_New.
  - split; [by vm_compute|]. split; [by vm_compute|].
    intros t Ht. vm_compute in Ht. injection Ht as <-. by vm_compute.
Defined.

Lemma repeated_polls_witness :
  (run (replicate 3 fs_link_a) (tick fs_link_a (New ["/s"])).1).1 =
    (tick fs_link_a (New ["/s"])).1 /\
  events_of (run (replicate 3 fs_link_a) (tick fs_link_a (New ["/s"])).1).2 = [].
Proof.
  apply (repeated_polls_of_same_snapshot_are_quiet fs_link_a (New ["/s"]) 3).
  apply reachable_New.
Defined.

Lemma iteration_order_witness :
  (tick_order (fs_of [("/s", Link "/a"); ("/a", File (regular 5 100)); ("/other", File (regular 0 7))])
              ["/s"; "/other"] (New ["/s"; "/other"])).1 =
  (tick (fs_of [("/s", Link "/a"); ("/a", File (regular 5 100)); ("/other", File (regular 0 7))])
        (New ["/s"; "/other"])).1 /\
  (forall p,
     events_for p
       (tick_order (fs_of [("/s", Link "/a"); ("/a", File (regular 5 100)); ("/other", File (regular 0 7))])
                   ["/s"; "/other"] (New ["/s"; "/other"])).2 =
     events_for p
       (tick (fs_of [("/s", Link "/a"); ("/a", File (regular 5 100)); ("/other", File (regular 0 7))])
             (New ["/s"; "/other"])).2) /\
  (tick_order (fs_of [("/s", Link "/a"); ("/a", File (regular 5 100)); ("/other", File (regular 0 7))])
              ["/s"; "/other"] (New ["/s"; "/other"])).2 ≡ₚ
  (tick (fs_of [("/s", Link "/a"); ("/a", File (regular 5 100)); ("/other", File (regular 0 7))])
        (New ["/s"; "/other"])).2.
Proof.
  apply (iteration_order_is_irrelevant
           (fs_of [("/s", Link "/a"); ("/a", File (regular 5 100)); ("/other", File (regular 0 7))])
           ["/s"; "/other"] (New ["/s"; "/other"])).
  - apply reachable_New.
  - vm_compute. apply perm_swap.
Defined.

Lemma sends_bounded_witness :
  (length (tick (fs_of [("/s", Link "/a"); ("/a", File (regular 5 100)); ("/other", NoAccess)])
                (New ["/s"; "/other"])).2 <=
   size (New ["/s"; "/other"]))%nat /\
  (tick (fs_of [("/s", Link "/a"); ("/a", File (regular 5 100)); ("/other", NoAccess)])
        (New ["/s"; "/other"])).2 =
    [sendError (eacces "lstat" "/other");
     sendEvent {| Name := "/s"; op := Z.lor Create Write |}].
Proof.
  split.
  - apply sends_per_cycle_bounded_by_tracked_paths. apply reachable_New.
  - by vm_compute.
Defined.

Lemma unchanged_entry_witness :
  events_for "/s" (tick fs_link_a (tick fs_link_a (New ["/s"])).1).2 = [].
Proof.
  apply (unchanged_entry_means_no_event
           fs_link_a (tick fs_link_a (New ["/s"])).1 "/s" st_link_a).
  - apply reachable_tick_default, reachable_New.
  - vm_compute. reflexivity.
  - vm_compute. reflexivity.
Defined.

Lemma one_event_combined_bits_witness :
  (length (events_for "/s" (tick fs_link_a (New ["/s"])).2) <= 1)%nat /\
  (forall e, e ∈ events_for "/s" (tick fs_link_a (New ["/s"])).2 ->
     Name e = "/s" /\
     (op e = Create \/ op e = Z.lor Create Write \/ op e = Write \/ op e = Remove)) /\
  events_for "/s" (tick fs_link_a (New ["/s"])).2 =
    [{| Name := "/s"; op := Z.lor Create Write |}].
Proof.
  destruct (one_event_per_path_with_combined_bits fs_link_a (New ["/s"]) "/s")
    as (Hone & Hmask & Hboth); [apply reachable_New|].
  split; [exact Hone|]. split; [exact Hmask|].
  apply (Hboth (empty_state "/s") 5).
  - by vm_compute.
  - right. split; [reflexivity|]. exists "/a", (regular 5 100).
    split; [|reflexivity]. exists link_info. by vm_compute.
  - reflexivity.
Defined.

Lemma second_Remove_witness :
  lstat_not_found fs_absent "/s" = true /\
  Exists (fun fs => target_stat_fails fs "/s" = true) [fs_dangling; fs_file].
Proof.
  apply (second_Remove_only_for_lost_dangling_symlink
           fs_dangling [fs_file] fs_absent (tick fs_link_a (New ["/s"])).1 "/s").
  - apply reachable_tick_default, reachable_New.
  - by vm_compute.
  - vm_compute. repeat constructor.
  - by vm_compute.
Defined.

Example New_panics_on_a_zero_interval :
  NewWatcher false ["/s"] [WithInterval 0] = Panics /\
  NewWatcher true ["/s"] [] =
    Returns ({| tracked := New ["/s"]; interval := testInterval; ticker := Tick testInterval |},
             None).
Proof. split; reflexivity. Qed.
